(** * ASE command registry and tooltip engine: a shallow embedding

    Sources embedded here:
    - [src/commands/commands.c]: the command table, lookup by name and by
      key, the enabled/checked predicates, guarded execution and the
      accelerator reset;
    - [src/ui/tooltips.cpp]: [TooltipManager] (message filter and timer
      tick with the placement search) and [TipWindow::onPreferredSize].

    Conventions.  A C [int] is a [Z]; signed overflow is undefined in C and
    C++, so the arithmetic is the mathematical one.  A pointer that may be
    null is an [option].  A C function pointer stored in a [Command] is a
    function on the application state that either returns or leaves through
    a non-local exit. *)

From Stdlib Require Import ZArith Lia.
From stdpp Require Import base option list gmap strings.

Local Open Scope Z_scope.

(** ** Command registry ([src/commands/commands.c]) *)

Module Commands.

(** [const char *]: null or a string. *)
Definition cstr := option string.

(** What an observer of one [command_execute] call sees, in order. *)
Inductive event :=
| ConsoleOpen
| ConsoleClose
| EnabledCalled (argument : cstr)
| CheckedCalled (argument : cstr)
| ExecuteCalled (argument : cstr).

(** The [JMessage] fields that [command_is_key_pressed] reads. *)
Record JMessage := {
  shifts : Z;      (* msg->any.shifts *)
  ascii : Z;       (* msg->key.ascii *)
  scancode : Z     (* msg->key.scancode *)
}.

(** [JAccel] and its operations belong to the jinete toolkit; the
    registry only calls them. *)
Class Jinete (JAccel : Type) := {
  jaccel_new : JAccel;
  jaccel_add_keys_from_string : JAccel -> string -> JAccel;
  jaccel_check : JAccel -> Z -> Z -> Z -> bool
}.

Section Registry.

(** Application state the command bodies act on. *)
Context {App : Type}.

Context {JAccel : Type} `{!Jinete JAccel}.

(** A call through a function pointer: it comes back with a value, or it
    does not come back ([longjmp], [exit], a crash). *)
Inductive result (A : Type) :=
| Normal (a : A) (s : App)
| Abrupt (s : App).
Arguments Normal {A} a s.
Arguments Abrupt {A} s.

Definition callable (A : Type) := cstr -> App -> result A.

Record Command := {
  name : string;
  enabled : option (callable bool);
  checked : option (callable bool);
  execute : option (callable unit);
  accel : option JAccel
}.

Record World := {
  trace : list event;
  app_state : App
}.

Definition log (e : event) (w : World) : World :=
  {| trace := trace w ++ [e]; app_state := app_state w |}.

Inductive outcome (A : Type) :=
| Returned (a : A) (w : World)
| Faulted (w : World).
Arguments Returned {A} a w.
Arguments Faulted {A} w.

(** Statements run in sequence; a non-local exit skips what follows. *)
Definition M (A : Type) := World -> outcome A.

Definition ret {A} (a : A) : M A := fun w => Returned a w.

Definition bind {A B} (m : M A) (k : A -> M B) : M B :=
  fun w => match m w with
           | Returned a w' => k a w'
           | Faulted w' => Faulted w'
           end.

Notation "'do' x <- m ; k" := (bind m (fun x => k))
  (at level 10, x name, m at level 100, k at level 200).
Notation "'run' m ; k" := (bind m (fun _ => k))
  (at level 10, m at level 100, k at level 200).

Definition console_open : M unit := fun w => Returned tt (log ConsoleOpen w).
Definition console_close : M unit := fun w => Returned tt (log ConsoleClose w).

(** A call through the function pointer [f] with [argument], recorded as
    [e]. *)
Definition invoke {A} (e : event) (f : callable A) (argument : cstr) : M A :=
  fun w =>
    let w1 := log e w in
    match f argument (app_state w1) with
    | Normal a s => Returned a {| trace := trace w1; app_state := s |}
    | Abrupt s => Faulted {| trace := trace w1; app_state := s |}
    end.

(** The null-terminated table [commands[]], in declaration order. *)
Definition registry := list Command.

Fixpoint command_get_by_name_loop (cmd : registry) (n : string)
  : option Command :=
  match cmd with
  | [] => None
  | c :: rest =>
      if decide (name c = n) then Some c
      else command_get_by_name_loop rest n
  end.

Definition command_get_by_name (commands : registry) (n : cstr)
  : option Command :=
  match n with
  | None => None
  | Some s => command_get_by_name_loop commands s
  end.

Definition command_is_key_pressed (command : Command) (msg : JMessage) : bool :=
  match accel command with
  | Some a => jaccel_check a (shifts msg) (ascii msg) (scancode msg)
  | None => false
  end.

Fixpoint command_get_by_key (commands : registry) (msg : JMessage)
  : option Command :=
  match commands with
  | [] => None
  | c :: rest =>
      if command_is_key_pressed c msg then Some c
      else command_get_by_key rest msg
  end.

Definition command_is_enabled (command : option Command) (argument : cstr)
  : M bool :=
  match command with
  | Some c =>
      match enabled c with
      | Some f => invoke (EnabledCalled argument) f argument
      | None => ret true
      end
  | None => ret true
  end.

Definition command_is_checked (command : option Command) (argument : cstr)
  : M bool :=
  match command with
  | Some c =>
      match checked c with
      | Some f => invoke (CheckedCalled argument) f argument
      | None => ret false
      end
  | None => ret false
  end.

Definition command_execute (command : option Command) (argument : cstr)
  : M unit :=
  run console_open;
  run match command with
      | Some c =>
          match execute c with
          | Some f =>
              do b <- command_is_enabled command argument;
              if b : bool then invoke (ExecuteCalled argument) f argument
              else ret tt
          | None => ret tt
          end
      | None => ret tt
      end;
  console_close.

Definition command_add_key (command : Command) (s : string) : Command :=
  let a := match accel command with
           | Some a => a
           | None => jaccel_new
           end in
  {| name := name command;
     enabled := enabled command;
     checked := checked command;
     execute := execute command;
     accel := Some (jaccel_add_keys_from_string a ("<" +:+ s +:+ ">")) |}.

Definition reset_keys (c : Command) : Command :=
  match accel c with
  | Some _ =>
      {| name := name c;
         enabled := enabled c;
         checked := checked c;
         execute := execute c;
         accel := None |}
  | None => c
  end.

Definition command_reset_keys (commands : registry) : registry :=
  reset_keys <$> commands.


(** A callable that comes back from every call. *)
Definition returns {A} (f : callable A) : Prop :=
  forall argument s, exists a s', f argument s = Normal a s'.

(** Neither predicate nor body of the command leaves through a non-local
    exit. *)
Definition well_behaved (command : option Command) : Prop :=
  forall c, command = Some c ->
    (forall f, enabled c = Some f -> returns f) /\
    (forall f, execute c = Some f -> returns f).

(** The calls that one [command_execute] makes come back: the predicate,
    when the command has a body and a predicate, called on the state at
    entry; and the body, when the predicate answers true or is absent,
    called on the state the predicate left. Callables that this run does
    not call are not constrained. *)
Definition calls_return (command : option Command) (argument : cstr)
  (w : World) : Prop :=
  forall c f, command = Some c -> execute c = Some f ->
    match enabled c with
    | Some g =>
        exists b s1, g argument (app_state w) = Normal b s1 /\
          (b = true -> exists u s2, f argument s1 = Normal u s2)
    | None => exists u s2, f argument (app_state w) = Normal u s2
    end.




End Registry.

Arguments Normal {App A} a s.
Arguments Abrupt {App A} s.
Arguments Returned {App A} a w.
Arguments Faulted {App A} w.

(** *** A small registry to evaluate the definitions on *)

Module Example.

(** Accelerators as lists of chords [(shifts, ascii, scancode)]; a key
    string of one character binds that character. *)
Definition chord := (Z * Z * Z)%type.

Definition chord_eqb (a b : chord) : bool :=
  let '(s1, a1, c1) := a in
  let '(s2, a2, c2) := b in
  (s1 =? s2) && (a1 =? a2) && (c1 =? c2).

Global Instance toy_jinete : Jinete (list chord) := {|
  jaccel_new := [];
  jaccel_add_keys_from_string a s :=
    match s with
    | String lt (String ch (String gt EmptyString)) =>
        if decide (lt = Ascii.ascii_of_nat 60 /\ gt = Ascii.ascii_of_nat 62)
        then a ++ [(0, Z.of_nat (Ascii.nat_of_ascii ch), 0)]
        else a
    | _ => a
    end;
  jaccel_check a sh asc sc := existsb (chord_eqb (sh, asc, sc)) a
|}.

(** The application state is a counter of executed bodies. *)
Definition bump : callable (App := nat) unit :=
  fun _ s => Normal tt (S s).
Definition never : callable (App := nat) bool :=
  fun _ s => Normal false s.
Definition crash : callable (App := nat) unit :=
  fun _ s => Abrupt s.

Definition plain (n : string) (body : callable (App := nat) unit)
  : Command (App := nat) (JAccel := list chord) :=
  {| name := n; enabled := None; checked := None;
     execute := Some body; accel := None |}.

Definition cmd_undo := command_add_key (plain "undo" bump) "z".
Definition cmd_redo := command_add_key (plain "redo" bump) "z".
Definition cmd_copy := plain "copy" bump.
Definition cmd_paste : Command (App := nat) (JAccel := list chord) :=
  {| name := "paste"; enabled := Some never; checked := None;
     execute := Some bump; accel := None |}.

Definition commands : registry := [cmd_copy; cmd_undo; cmd_redo; cmd_paste].

(** A disabled command whose body would not come back. *)
Definition cmd_locked : Command (App := nat) (JAccel := list chord) :=
  {| name := "locked"; enabled := Some never; checked := None;
     execute := Some crash; accel := None |}.

(** A command with a predicate that does not come back and no body. *)
Definition stuck : callable (App := nat) bool :=
  fun _ s => Abrupt s.
Definition cmd_label : Command (App := nat) (JAccel := list chord) :=
  {| name := "label"; enabled := Some stuck; checked := None;
     execute := None; accel := None |}.

Definition key_z : JMessage := {| shifts := 0; ascii := 122; scancode := 0 |}.

Definition w0 : World (App := nat) := {| trace := []; app_state := 0%nat |}.

End Example.

End Commands.

(** ** Tooltip engine ([src/ui/tooltips.cpp]) *)

Module Tooltips.

(** [gfx::Rect], [gfx::Size], [gfx::Border]. *)
Record Rect := { rect_x : Z; rect_y : Z; rect_w : Z; rect_h : Z }.
Record Size := { size_w : Z; size_h : Z }.
Record Border := { border_l : Z; border_t : Z; border_r : Z; border_b : Z }.

(** [Rect - Border]: the rectangle shrunk by the border. *)
Definition rect_shrink (rc : Rect) (br : Border) : Rect :=
  {| rect_x := rect_x rc + border_l br;
     rect_y := rect_y rc + border_t br;
     rect_w := rect_w rc - (border_l br + border_r br);
     rect_h := rect_h rc - (border_t br + border_b br) |}.

(** The macro [MAX(x,y)], [((x) > (y)) ? (x) : (y)]. *)
Definition MAX (x y : Z) : Z := if x >? y then x else y.

(** A [Widget*] is the identity of a widget. *)
Abbreviation Widget := nat.

(** The message types the manager filters, and any other. *)
Inductive MessageType :=
| kMouseEnterMessage
| kKeyDownMessage
| kMouseDownMessage
| kMouseLeaveMessage
| kOtherMessage (code : nat).

Record Message := {
  type : MessageType;
  recipients : list Widget
}.

(** What the engine uses of the toolkit without defining it: the alignment
    flags [JI_*], the macro [MID], [gfx::Rect::intersects] (receiver first)
    and the result of the base class handler [Widget::onProcessMessage]. *)
Class Toolkit := {
  JI_LEFT : Z;
  JI_RIGHT : Z;
  JI_TOP : Z;
  JI_BOTTOM : Z;
  MID : Z -> Z -> Z -> Z;
  intersects : Rect -> Rect -> bool;
  Widget_onProcessMessage : Message -> bool
}.

(** What [onTick] reads from the display and the widget tree when the timer
    fires. [preferred_size] is the size [remapWindow] gives the new popup. *)
Record Screen := {
  getBounds : Widget -> Rect;
  mouse_x : Z;
  mouse_y : Z;
  guiscale : Z;
  display_w : Z;
  display_h : Z;
  preferred_size : string -> Size
}.

Definition kTooltipDelayMsecs : Z := 300.

Record TipInfo := { text : string; arrowAlign : Z }.

(** [m_target]: the hovered widget (null before the first hover) and its
    tip. *)
Record Target := { widget : option Widget; tipInfo : TipInfo }.

(** Modelled from the spec: [ui::Timer] is declared outside this excerpt;
    a timer has an interval, is started and stopped explicitly, and ticks
    only while it runs. *)
Record Timer := { interval : Z; running : bool }.

Definition new_Timer (msecs : Z) : Timer :=
  {| interval := msecs; running := false |}.
Definition Timer_start (t : Timer) : Timer :=
  {| interval := interval t; running := true |}.
Definition Timer_stop (t : Timer) : Timer :=
  {| interval := interval t; running := false |}.

Record TipWindow := {
  tw_text : string;
  tw_target : Rect;        (* m_target *)
  m_arrowAlign : Z;
  tw_bounds : Rect;
  tw_open : bool
}.

Definition new_TipWindow (txt : string) (target : Rect) : TipWindow :=
  {| tw_text := txt; tw_target := target; m_arrowAlign := 0;
     tw_bounds := {| rect_x := 0; rect_y := 0; rect_w := 0; rect_h := 0 |};
     tw_open := false |}.

Definition remapWindow (scr : Screen) (win : TipWindow) : TipWindow :=
  let sz := preferred_size scr (tw_text win) in
  {| tw_text := tw_text win; tw_target := tw_target win;
     m_arrowAlign := m_arrowAlign win;
     tw_bounds := {| rect_x := rect_x (tw_bounds win);
                     rect_y := rect_y (tw_bounds win);
                     rect_w := size_w sz; rect_h := size_h sz |};
     tw_open := tw_open win |}.

Definition setArrowAlign (win : TipWindow) (a : Z) : TipWindow :=
  {| tw_text := tw_text win; tw_target := tw_target win;
     m_arrowAlign := a; tw_bounds := tw_bounds win; tw_open := tw_open win |}.

Definition positionWindow (win : TipWindow) (x y : Z) : TipWindow :=
  {| tw_text := tw_text win; tw_target := tw_target win;
     m_arrowAlign := m_arrowAlign win;
     tw_bounds := {| rect_x := x; rect_y := y;
                     rect_w := rect_w (tw_bounds win);
                     rect_h := rect_h (tw_bounds win) |};
     tw_open := tw_open win |}.

Definition openWindow (win : TipWindow) : TipWindow :=
  {| tw_text := tw_text win; tw_target := tw_target win;
     m_arrowAlign := m_arrowAlign win; tw_bounds := tw_bounds win;
     tw_open := true |}.

Record TooltipManager := {
  m_tips : gmap Widget TipInfo;
  m_target : Target;
  m_timer : option Timer;
  m_tipWindow : option TipWindow
}.

Definition addTooltipFor (s : TooltipManager) (wd : Widget) (txt : string)
  (align : Z) : TooltipManager :=
  {| m_tips := <[wd := {| text := txt; arrowAlign := align |}]> (m_tips s);
     m_target := m_target s; m_timer := m_timer s;
     m_tipWindow := m_tipWindow s |}.

Definition removeTooltipFor (s : TooltipManager) (wd : Widget)
  : TooltipManager :=
  {| m_tips := delete wd (m_tips s);
     m_target := m_target s; m_timer := m_timer s;
     m_tipWindow := m_tipWindow s |}.

Section Engine.

Context {TK : Toolkit}.

(** Body of the [kMouseEnterMessage] loop for one recipient. *)
Definition enter_widget (s : TooltipManager) (wd : Widget) : TooltipManager :=
  match m_tips s !! wd with
  | Some ti =>
      let t := match m_timer s with
               | Some t => t
               | None => new_Timer kTooltipDelayMsecs
               end in
      {| m_tips := m_tips s;
         m_target := {| widget := Some wd; tipInfo := ti |};
         m_timer := Some (Timer_start t);
         m_tipWindow := m_tipWindow s |}
  | None => s
  end.

Definition onProcessMessage (s : TooltipManager) (msg : Message)
  : TooltipManager * bool :=
  match type msg with
  | kMouseEnterMessage => (foldl enter_widget s (recipients msg), false)
  | kKeyDownMessage | kMouseDownMessage | kMouseLeaveMessage =>
      ({| m_tips := m_tips s;
          m_target := m_target s;
          m_timer := Timer_stop <$> m_timer s;
          m_tipWindow := None |}, false)
  | kOtherMessage _ => (s, Widget_onProcessMessage msg)
  end.

(** First [switch] of the loop: the origin for an alignment; an alignment
    that is none of the eight labels leaves [x] and [y] as they are. *)
Definition candidate (bounds : Rect) (w h : Z) (a x y : Z) : Z * Z :=
  if decide (a = Z.lor JI_TOP JI_LEFT) then
    (rect_x bounds + rect_w bounds, rect_y bounds + rect_h bounds)
  else if decide (a = Z.lor JI_TOP JI_RIGHT) then
    (rect_x bounds - w, rect_y bounds + rect_h bounds)
  else if decide (a = Z.lor JI_BOTTOM JI_LEFT) then
    (rect_x bounds + rect_w bounds, rect_y bounds - h)
  else if decide (a = Z.lor JI_BOTTOM JI_RIGHT) then
    (rect_x bounds - w, rect_y bounds - h)
  else if decide (a = JI_TOP) then
    (rect_x bounds + rect_w bounds ÷ 2 - w ÷ 2, rect_y bounds + rect_h bounds)
  else if decide (a = JI_BOTTOM) then
    (rect_x bounds + rect_w bounds ÷ 2 - w ÷ 2, rect_y bounds - h)
  else if decide (a = JI_LEFT) then
    (rect_x bounds + rect_w bounds, rect_y bounds + rect_h bounds ÷ 2 - h ÷ 2)
  else if decide (a = JI_RIGHT) then
    (rect_x bounds - w, rect_y bounds + rect_h bounds ÷ 2 - h ÷ 2)
  else (x, y).

(** [if (a & mask) a ^= mask]. *)
Definition toggle (mask a : Z) : Z :=
  if decide (Z.land a mask = 0) then a else Z.lxor a mask.

(** Second [switch] of the loop, on [trycount]. *)
Definition next_align (trycount : nat) (a : Z) : Z :=
  match trycount with
  | 0%nat | 2%nat =>
      toggle (Z.lor JI_LEFT JI_RIGHT) (toggle (Z.lor JI_TOP JI_BOTTOM) a)
  | 1%nat =>
      toggle (Z.lor JI_BOTTOM JI_RIGHT) (toggle (Z.lor JI_TOP JI_LEFT) a)
  | _ => a
  end.

Inductive placement :=
| Placed (a x y : Z)
| NoRoom.

(** One pass of the loop body up to the test: the clamped origin. *)
Definition clamped (scr : Screen) (bounds : Rect) (w h : Z) (a x y : Z)
  : Z * Z :=
  let '(x1, y1) := candidate bounds w h a x y in
  (MID 0 x1 (display_w scr - w), MID 0 y1 (display_h scr - h)).

(** [for (; trycount < 4; ++trycount)]: [passes] is [4 - trycount], the
    passes that remain; [NoRoom] is the exit with [trycount == 4]. *)
Fixpoint place (scr : Screen) (bounds : Rect) (w h : Z)
  (passes trycount : nat) (a x y : Z) : placement :=
  match passes with
  | O => NoRoom
  | S passes' =>
      let '(x1, y1) := clamped scr bounds w h a x y in
      if intersects bounds
           {| rect_x := x1; rect_y := y1; rect_w := w; rect_h := h |}
      then place scr bounds w h passes' (S trycount) (next_align trycount a) x1 y1
      else Placed a x1 y1
  end.

(** The search as the specification tells it: attempt [k] of a search that
    starts at count [trycount] with alignment [a] and origin [(x, y)] is the
    alignment tried and its clamped origin; each attempt after the first
    takes the next alignment and starts from the previous clamped origin. *)
Fixpoint attempt (scr : Screen) (bounds : Rect) (w h : Z)
  (trycount : nat) (a x y : Z) (k : nat) : Z * Z * Z :=
  let '(x1, y1) := clamped scr bounds w h a x y in
  match k with
  | O => (a, x1, y1)
  | S k' =>
      attempt scr bounds w h (S trycount) (next_align trycount a) x1 y1 k'
  end.

Definition collides (scr : Screen) (bounds : Rect) (w h : Z)
  (trycount : nat) (a x y : Z) (k : nat) : bool :=
  let '(_, x1, y1) := attempt scr bounds w h trycount a x y k in
  intersects bounds {| rect_x := x1; rect_y := y1; rect_w := w; rect_h := h |}.

Definition set_timer_window (s : TooltipManager) (t : Timer)
  (win : option TipWindow) : TooltipManager :=
  {| m_tips := m_tips s; m_target := m_target s;
     m_timer := Some t; m_tipWindow := win |}.

(** [None]: a null [m_timer] or a null [m_target.widget] is dereferenced. *)
Definition onTick (scr : Screen) (s : TooltipManager) : option TooltipManager :=
  match m_timer s with
  | None => None
  | Some t =>
      match m_tipWindow s with
      | None =>
          match widget (m_target s) with
          | None => None
          | Some wd =>
              let bounds := getBounds scr wd in
              let win := new_TipWindow (text (tipInfo (m_target s))) bounds in
              let x := mouse_x scr + 12 * guiscale scr in
              let y := mouse_y scr + 12 * guiscale scr in
              let win := remapWindow scr win in
              let w := rect_w (tw_bounds win) in
              let h := rect_h (tw_bounds win) in
              match place scr bounds w h 4 0
                      (arrowAlign (tipInfo (m_target s))) x y with
              | Placed a x1 y1 =>
                  Some (set_timer_window s (Timer_stop t)
                          (Some (openWindow
                                   (positionWindow (setArrowAlign win a) x1 y1))))
              | NoRoom =>
                  Some (set_timer_window s (Timer_stop (Timer_stop t)) None)
              end
          end
      | Some win => Some (set_timer_window s (Timer_stop t) (Some win))
      end
  end.

(** The states of the engine, read off the manager. *)
Inductive phase := Idle | Pending | Shown.

Definition timer_running (s : TooltipManager) : bool :=
  match m_timer s with
  | Some t => running t
  | None => false
  end.

Definition phase_of (s : TooltipManager) : phase :=
  match m_tipWindow s with
  | Some _ => Shown
  | None => if timer_running s then Pending else Idle
  end.

(** The message loop as the engine sees it: a message passes through the
    filter, or the delay has elapsed, which calls [onTick] only when the
    timer runs. The count is the number of [onTick] passes. *)
Inductive input :=
| Deliver (msg : Message)
| Elapsed (scr : Screen).


Definition react (s : TooltipManager) (i : input)
  : option (TooltipManager * nat) :=
  match i with
  | Deliver msg => Some (fst (onProcessMessage s msg), 0%nat)
  | Elapsed scr =>
      if timer_running s then
        match onTick scr s with
        | Some s' => Some (s', 1%nat)
        | None => None
        end
      else Some (s, 0%nat)
  end.

Fixpoint react_all (s : TooltipManager) (inputs : list input)
  : option (TooltipManager * nat) :=
  match inputs with
  | [] => Some (s, 0%nat)
  | i :: rest =>
      match react s i with
      | Some (s1, n) =>
          match react_all s1 rest with
          | Some (s2, m) => Some (s2, (n + m)%nat)
          | None => None
          end
      | None => None
      end
  end.

(** The labels of the first [switch]: the four corners, then the four
    sides. *)
Definition corner_labels : list Z :=
  [Z.lor JI_TOP JI_LEFT; Z.lor JI_TOP JI_RIGHT;
   Z.lor JI_BOTTOM JI_LEFT; Z.lor JI_BOTTOM JI_RIGHT].

Definition side_labels : list Z := [JI_TOP; JI_BOTTOM; JI_LEFT; JI_RIGHT].

Definition case_labels : list Z := corner_labels ++ side_labels.

(** The four flags are non-zero and share no bit. *)
Definition distinct_flags : Prop :=
  JI_TOP <> 0 /\ JI_BOTTOM <> 0 /\ JI_LEFT <> 0 /\ JI_RIGHT <> 0 /\
  Z.land JI_TOP JI_BOTTOM = 0 /\ Z.land JI_TOP JI_LEFT = 0 /\
  Z.land JI_TOP JI_RIGHT = 0 /\ Z.land JI_BOTTOM JI_LEFT = 0 /\
  Z.land JI_BOTTOM JI_RIGHT = 0 /\ Z.land JI_LEFT JI_RIGHT = 0.

(** The alignment that attempt [k] tries. *)
Definition attempt_align (scr : Screen) (bounds : Rect) (w h : Z)
  (a x y : Z) (k : nat) : Z :=
  fst (fst (attempt scr bounds w h 0 a x y k)).

(** The hover-enter messages among the inputs. *)
Definition is_enter (i : input) : bool :=
  match i with
  | Deliver msg =>
      match type msg with
      | kMouseEnterMessage => true
      | _ => false
      end
  | Elapsed _ => false
  end.

Definition hover_enters (inputs : list input) : nat :=
  length (filter is_enter inputs).

(** The popup that the manager holds, if any, is open and clear of the
    rectangle it was opened for. *)
Definition popup_clear (s : TooltipManager) : Prop :=
  forall win, m_tipWindow s = Some win ->
    tw_open win = true /\ intersects (tw_target win) (tw_bounds win) = false.

(** A running timer has a widget to show the tip for. *)
Definition target_set (s : TooltipManager) : Prop :=
  timer_running s = true -> is_Some (widget (m_target s)).

End Engine.

(** *** [TipWindow::onPreferredSize] *)

Section PreferredSize.

(** [Graphics::fitString] with the font that [setFont] selected. *)
Context {Font : Type}.
Variable fitString : Font -> string -> Z -> Z -> Size.

(** The loop over the children: the running [maxSize]. *)
Definition grow (maxSize reqSize : Size) : Size :=
  {| size_w := MAX (size_w maxSize) (size_w reqSize);
     size_h := MAX (size_h maxSize) (size_h reqSize) |}.

(** [children] are the children's [getPreferredSize()], in order. *)
Definition onPreferredSize (font : Font) (txt : string) (clientBounds : Rect)
  (border_width : Border) (align : Z) (children : list Size) : Size :=
  let fit := fitString font txt
               (rect_w (rect_shrink clientBounds border_width)) align in
  let resultSize :=
    {| size_w := size_w fit + (border_l border_width + border_r border_width);
       size_h := size_h fit + (border_t border_width + border_b border_width) |} in
  match children with
  | [] => resultSize
  | _ :: _ =>
      let maxSize := foldl grow {| size_w := 0; size_h := 0 |} children in
      {| size_w := MAX (size_w resultSize)
                     (border_l border_width + size_w maxSize
                      + border_r border_width);
         size_h := size_h resultSize + size_h maxSize |}
  end.

(** The preferred size as the specification describes it: the fitted text
    plus the border, the width at least the widest child plus the
    horizontal border, the height grown by the sum of the children's
    heights. *)
Definition sum_heights (children : list Size) : Z :=
  foldr (fun c acc => size_h c + acc) 0 children.

Definition max_width (children : list Size) : Z :=
  foldr (fun c acc => Z.max (size_w c) acc) 0 children.

Definition max_height (children : list Size) : Z :=
  foldr (fun c acc => Z.max (size_h c) acc) 0 children.

Definition described_size (font : Font) (txt : string) (clientBounds : Rect)
  (border_width : Border) (align : Z) (children : list Size) : Size :=
  let fit := fitString font txt
               (rect_w clientBounds
                - (border_l border_width + border_r border_width)) align in
  {| size_w := Z.max (size_w fit) (max_width children)
               + border_l border_width + border_r border_width;
     size_h := size_h fit + border_t border_width + border_b border_width
               + sum_heights children |}.

End PreferredSize.

(** *** A toolkit and screens to evaluate the definitions on *)

Module Example.

(** [MID] as the median of its three arguments. *)
Definition MID_median (x y z : Z) : Z :=
  if x >? y then (if y >? z then y else if x >? z then z else x)
  else (if y >? z then (if z >? x then z else x) else y).

(** [MID] as [MAX(x, MIN(y, z))]. *)
Definition MID_maxmin (x y z : Z) : Z :=
  MAX x (if y <? z then y else z).

Definition isEmpty (rc : Rect) : bool :=
  (rect_w rc <? 1) || (rect_h rc <? 1).

(** Two non-empty rectangles intersect when they share a pixel. *)
Definition rect_intersects (this rc : Rect) : bool :=
  if isEmpty this || isEmpty rc then false
  else (rect_x rc <? rect_x this + rect_w this)
       && (rect_x rc + rect_w rc >? rect_x this)
       && (rect_y rc <? rect_y this + rect_h this)
       && (rect_y rc + rect_h rc >? rect_y this).

Definition toolkit_with (mid : Z -> Z -> Z -> Z) : Toolkit := {|
  JI_LEFT := 4;
  JI_RIGHT := 16;
  JI_TOP := 32;
  JI_BOTTOM := 128;
  MID := mid;
  intersects := rect_intersects;
  Widget_onProcessMessage := fun _ => false
|}.

Definition toolkit : Toolkit := toolkit_with MID_median.

Definition button : Widget := 1%nat.
Definition slider : Widget := 2%nat.

Definition bounds_of (wd : Widget) : Rect :=
  if decide (wd = button)
  then {| rect_x := 100; rect_y := 100; rect_w := 50; rect_h := 20 |}
  else {| rect_x := 300; rect_y := 200; rect_w := 120; rect_h := 16 |}.

(** An 800x600 display; every popup measures [w] x [h]. *)
Definition screen (w h : Z) : Screen := {|
  getBounds := bounds_of;
  mouse_x := 110; mouse_y := 105; guiscale := 1;
  display_w := 800; display_h := 600;
  preferred_size := fun _ => {| size_w := w; size_h := h |}
|}.

(** A display that the hovered widget covers entirely. *)
Definition covered : Screen := {|
  getBounds := fun _ =>
    {| rect_x := 0; rect_y := 0; rect_w := 100; rect_h := 100 |};
  mouse_x := 50; mouse_y := 50; guiscale := 1;
  display_w := 100; display_h := 100;
  preferred_size := fun _ => {| size_w := 10; size_h := 10 |}
|}.

Definition initial : TooltipManager := {|
  m_tips := ∅;
  m_target := {| widget := None;
                 tipInfo := {| text := EmptyString; arrowAlign := 0 |} |};
  m_timer := None;
  m_tipWindow := None
|}.

(** Tips on both widgets, arrow at the bottom right. *)
Definition registered : TooltipManager :=
  addTooltipFor (addTooltipFor initial button "Lock" (Z.lor 128 16))
    slider "Value" (Z.lor 128 16).

Definition enter (wd : Widget) : Message :=
  {| type := kMouseEnterMessage; recipients := [wd] |}.

Definition key_down : Message :=
  {| type := kKeyDownMessage; recipients := [] |}.

(** The button hovered, the delay running. *)
Definition pending : TooltipManager :=
  fst (onProcessMessage (TK := toolkit) registered (enter button)).

(** The button's popup shown. *)
Definition shown : TooltipManager :=
  default pending (onTick (TK := toolkit) (screen 60 30) pending).

(** The slider hovered while the button's popup is still shown. *)
Definition rehovered : TooltipManager :=
  fst (onProcessMessage (TK := toolkit) shown (enter slider)).

(** The slider hovered while the delay for the button is running. *)
Definition retargeted : TooltipManager :=
  fst (onProcessMessage (TK := toolkit) pending (enter slider)).

Definition value_tip : TipInfo := {| text := "Value"; arrowAlign := 144 |}.

(** A widget that has no tip. *)
Definition canvas : Widget := 7%nat.

(** One hover with its delay, a second elapsed delay and a key. *)
Definition session : list input :=
  [Deliver (enter button); Elapsed (screen 60 30); Elapsed (screen 60 30);
   Deliver key_down].

(** A text measure that gives every text 40 x 12, the border of
    [onInitTheme] at scale 1, and two children. *)
Definition fit_fixed : unit -> string -> Z -> Z -> Size :=
  fun _ _ _ _ => {| size_w := 40; size_h := 12 |}.

Definition tip_border : Border :=
  {| border_l := 6; border_t := 6; border_r := 6; border_b := 7 |}.

Definition client : Rect :=
  {| rect_x := 0; rect_y := 0; rect_w := 52; rect_h := 25 |}.

Definition two_children : list Size :=
  [ {| size_w := 20; size_h := 10 |}; {| size_w := 30; size_h := 20 |} ].

End Example.

End Tooltips.

(** ** Colour selector ([src/widgets/colsel2.c]) *)

Module ColorSelector.

(** The anonymous [enum] of the models; its values index [models[]]. *)
Definition MODEL_RGB : nat := 0.
Definition MODEL_HSV : nat := 1.
Definition MODEL_GRAY : nat := 2.
Definition MODEL_MASK : nat := 3.

(** The colour types that this file names. *)
Inductive color_type :=
| COLOR_TYPE_MASK
| COLOR_TYPE_RGB
| COLOR_TYPE_INDEX
| COLOR_TYPE_HSV
| COLOR_TYPE_GRAY.

(** An entry of [models[]], without the constructor of its container. *)
Record Model := {
  text : string;
  model : nat;
  model_color_type : color_type
}.

Definition models : list Model :=
  [ {| text := "RGB"; model := MODEL_RGB; model_color_type := COLOR_TYPE_RGB |};
    {| text := "HSV"; model := MODEL_HSV; model_color_type := COLOR_TYPE_RGB |};
    {| text := "Gray"; model := MODEL_GRAY;
       model_color_type := COLOR_TYPE_GRAY |};
    {| text := "Mask"; model := MODEL_MASK;
       model_color_type := COLOR_TYPE_MASK |} ].

(** The window as [select_tab_callback] sees it: for each named child,
    whether its [JI_HIDDEN] flag is set. *)
Abbreviation Window := (gmap string bool).

(** The loop of [select_tab_callback]. [m] is the position of the entry in
    [models[]] and [selected_model] the position that [data] points to;
    [jwidget_show] clears the flag and [jwidget_hide] sets it. [None]: no
    child has the name, and the null result of [jwidget_find_name] is
    dereferenced. *)
Fixpoint select_tab_loop (rest : list Model) (m selected_model : nat)
  (window : Window) (something_change : bool) : option (Window * bool) :=
  match rest with
  | [] => Some (window, something_change)
  | entry :: rest' =>
      match (window !! text entry : option bool) with
      | None => None
      | Some hidden =>
          if decide (m = selected_model) then
            if hidden
            then select_tab_loop rest' (S m) selected_model
                   (<[text entry := false]> window) true
            else select_tab_loop rest' (S m) selected_model
                   window something_change
          else
            if negb hidden
            then select_tab_loop rest' (S m) selected_model
                   (<[text entry := true]> window) true
            else select_tab_loop rest' (S m) selected_model
                   window something_change
      end
  end.

(** The result says whether [jwidget_relayout] is called. *)
Definition select_tab_callback (window : Window) (selected_model : nat)
  : option (Window * bool) :=
  select_tab_loop models 0 selected_model window false.

(** The window that [colorselector_new] builds, every container shown. *)
Definition new_window : Window :=
  <["RGB" := false]> (<["HSV" := false]> (<["Gray" := false]>
    (<["Mask" := false]> (<["pal" := false]> ∅)))).

End ColorSelector.

(** * Properties of the command registry *)

Module CommandsSpec.
Import Commands.

Section Registry.

Context {App JAccel : Type} `{!Jinete JAccel}.

Local Abbreviation Command := (Command (App := App) (JAccel := JAccel)).
Local Abbreviation registry := (registry (App := App) (JAccel := JAccel)).
Local Abbreviation World := (World (App := App)).

Implicit Types (c : Command) (commands : registry) (w : World).

Lemma get_by_name_loop_first commands (pre rest : registry) c :
  commands = pre ++ c :: rest ->
  Forall (fun c' => name c' <> name c) pre ->
  command_get_by_name_loop commands (name c) = Some c.
Proof.
  intros -> Hpre. induction Hpre as [|c' pre Hc' _ IH]; simpl.
  - by rewrite decide_True.
  - by rewrite decide_False.
Qed.

Lemma get_by_name_loop_none commands (n : string) :
  Forall (fun c => name c <> n) commands ->
  command_get_by_name_loop commands n = None.
Proof.
  induction 1 as [|c commands Hc _ IH]; simpl; [done|].
  by rewrite decide_False.
Qed.

Lemma get_by_key_first commands msg (pre rest : registry) c :
  commands = pre ++ c :: rest ->
  Forall (fun c' => command_is_key_pressed c' msg = false) pre ->
  command_is_key_pressed c msg = true ->
  command_get_by_key commands msg = Some c.
Proof.
  intros -> Hpre Hc. induction Hpre as [|c' pre Hc' _ IH]; simpl.
  - by rewrite Hc.
  - by rewrite Hc'.
Qed.

Lemma get_by_key_none commands msg :
  Forall (fun c => command_is_key_pressed c msg = false) commands ->
  command_get_by_key commands msg = None.
Proof.
  induction 1 as [|c commands Hc _ IH]; simpl; [done|]. by rewrite Hc.
Qed.

Lemma reset_keys_accel c : accel (reset_keys c) = None.
Proof. unfold reset_keys. by destruct (accel c) eqn:E. Qed.

Lemma reset_keys_idemp c : reset_keys (reset_keys c) = reset_keys c.
Proof. unfold reset_keys at 1. by rewrite reset_keys_accel. Qed.

(** C5. [command_get_by_name] gives back every registered command from its
    own name (names being unique in the table), answers not-found for a
    string that names no registered command and for a null name, and
    not-found is an ordinary return value. *)
Theorem command_get_by_name_round_trip commands :
  NoDup (name <$> commands) ->
  (forall c, c ∈ commands ->
     command_get_by_name commands (Some (name c)) = Some c) /\
  (forall s : string, (forall c, c ∈ commands -> name c <> s) ->
     command_get_by_name commands (Some s) = None) /\
  command_get_by_name commands None = None.
Proof.
  intros Hnd. split; [|split]; [| |done].
  - intros c Hc. apply list_elem_of_split in Hc as (pre & rest & ->).
    simpl. apply (get_by_name_loop_first _ pre rest); [done|].
    rewrite fmap_app, fmap_cons in Hnd.
    apply NoDup_app in Hnd as (_ & Hdisj & _).
    apply Forall_forall. intros c' Hc' Heq.
    apply (Hdisj (name c')).
    + by apply list_elem_of_fmap_2.
    + rewrite Heq. left.
  - intros s Hs. simpl. apply get_by_name_loop_none.
    by apply Forall_forall.
Qed.

(** C6. [command_get_by_key] scans the table in declaration order: when two
    commands match the same key message, the one declared first (with no
    match before it) is the one returned. *)
Theorem command_get_by_key_first_wins (pre mid post : registry) c1 c2 msg :
  Forall (fun c => command_is_key_pressed c msg = false) pre ->
  command_is_key_pressed c1 msg = true ->
  command_is_key_pressed c2 msg = true ->
  command_get_by_key (pre ++ c1 :: mid ++ c2 :: post) msg = Some c1.
Proof.
  intros Hpre H1 _. by apply (get_by_key_first _ _ pre (mid ++ c2 :: post)).
Qed.

(** C7. [command_reset_keys] gives back the table it was given, command
    for command and in the same order, each with its name and callables
    and with no accelerator; so [command_get_by_key] finds nothing for any
    key message; resetting twice is the same as resetting once. *)
Theorem command_reset_keys_clears commands :
  Forall2 (fun c c' =>
             name c' = name c /\ enabled c' = enabled c /\
             checked c' = checked c /\ execute c' = execute c /\
             accel c' = None)
    commands (command_reset_keys commands) /\
  Forall (fun c => accel c = None) (command_reset_keys commands) /\
  (forall msg, command_get_by_key (command_reset_keys commands) msg = None) /\
  command_reset_keys (command_reset_keys commands)
  = command_reset_keys commands.
Proof.
  assert (Hall : Forall (fun c => accel c = None) (command_reset_keys commands)).
  { apply Forall_fmap, Forall_forall. intros c _. apply reset_keys_accel. }
  split; [|split; [done|split]].
  - unfold command_reset_keys. clear Hall.
    induction commands as [|c commands IH]; [constructor|].
    rewrite fmap_cons. constructor; [|exact IH].
    unfold reset_keys. by destruct (accel c) eqn:E.
  - intros msg. apply get_by_key_none.
    eapply Forall_impl; [exact Hall|]. intros c Hc.
    unfold command_is_key_pressed. by rewrite Hc.
  - unfold command_reset_keys. rewrite <- list_fmap_compose.
    apply list_fmap_ext. intros i c _. apply reset_keys_idemp.
Qed.

Lemma well_behaved_calls_return (command : option Command) argument w :
  well_behaved command -> calls_return command argument w.
Proof.
  intros Hwb c f Hc Hf. destruct (Hwb c Hc) as [Hen Hex].
  destruct (enabled c) as [g|].
  - destruct (Hen g eq_refl argument (app_state w)) as (b & s1 & Hg).
    exists b, s1. split; [done|]. intros _. apply (Hex f Hf).
  - apply (Hex f Hf).
Qed.


End Registry.

(** The theorems at the example registry. *)

Lemma example_names_NoDup : NoDup (name <$> Example.commands).
Proof. apply (bool_decide_unpack _). vm_compute. exact I. Defined.

Lemma command_get_by_name_round_trip_witness :
  NoDup (name <$> Example.commands) /\
  command_get_by_name Example.commands (Some "undo"%string)
  = Some Example.cmd_undo /\
  command_get_by_name Example.commands (Some "zoom"%string) = None /\
  command_get_by_name Example.commands None = None.
Proof.
  split; [exact example_names_NoDup|].
  destruct (command_get_by_name_round_trip Example.commands
              example_names_NoDup) as (Hfound & Hmissing & Hnull).
  split; [|split]; [| |exact Hnull].
  - apply (Hfound Example.cmd_undo). right. left.
  - apply Hmissing. intros c Hc.
    apply list_elem_of_In in Hc. simpl in Hc.
    destruct Hc as [<-|[<-|[<-|[<-|[]]]]]; discriminate.
Defined.

Lemma command_get_by_key_first_wins_witness :
  Forall (fun c => command_is_key_pressed c Example.key_z = false)
    [Example.cmd_copy] /\
  command_is_key_pressed Example.cmd_undo Example.key_z = true /\
  command_is_key_pressed Example.cmd_redo Example.key_z = true /\
  command_get_by_key Example.commands Example.key_z = Some Example.cmd_undo.
Proof.
  assert (H0 : Forall (fun c => command_is_key_pressed c Example.key_z = false)
                 [Example.cmd_copy]).
  { constructor; [reflexivity|constructor]. }
  split; [exact H0|]. split; [reflexivity|]. split; [reflexivity|].
  exact (command_get_by_key_first_wins
           [Example.cmd_copy] [] [Example.cmd_paste]
           Example.cmd_undo Example.cmd_redo Example.key_z
           H0 eq_refl eq_refl).
Defined.

Lemma example_paste_well_behaved : well_behaved (Some Example.cmd_paste).
Proof.
  intros c [= <-]. split; intros f [= <-]; intros argument s.
  - by exists false, s.
  - by exists tt, (S s).
Defined.



(** The disabled command with the body that would not come back: the body
    is not called and the console is closed. *)
Example execute_locked :
  command_execute (Some Example.cmd_locked) None Example.w0
  = Returned tt {| trace := [ConsoleOpen; EnabledCalled None; ConsoleClose];
                   app_state := 0%nat |}.
Proof. reflexivity. Qed.

(** A disabled command: the console is opened and closed, the body is not
    called. *)
Example execute_disabled :
  command_execute (Some Example.cmd_paste) None Example.w0
  = Returned tt {| trace := [ConsoleOpen; EnabledCalled None; ConsoleClose];
                   app_state := 0%nat |}.
Proof. reflexivity. Qed.

Example execute_null :
  command_execute (JAccel := list Example.chord) None None Example.w0
  = Returned tt {| trace := [ConsoleOpen; ConsoleClose]; app_state := 0%nat |}.
Proof. reflexivity. Qed.


End CommandsSpec.

(** * Properties of the tooltip engine *)

Module TooltipsSpec.
Import Tooltips.

Section Engine.

Context {TK : Toolkit}.

Implicit Types (s : TooltipManager) (scr : Screen) (bounds : Rect).

(** *** The placement loop against the attempt sequence *)

Section Search.

Variables (scr : Screen) (bounds : Rect) (w h : Z).

Lemma attempt_0 t a x y x1 y1 :
  clamped scr bounds w h a x y = (x1, y1) ->
  attempt scr bounds w h t a x y 0 = (a, x1, y1).
Proof. intros E. simpl. by rewrite E. Qed.

Lemma attempt_S t a x y x1 y1 k :
  clamped scr bounds w h a x y = (x1, y1) ->
  attempt scr bounds w h t a x y (S k)
  = attempt scr bounds w h (S t) (next_align t a) x1 y1 k.
Proof. intros E. simpl. by rewrite E. Qed.

Lemma collides_0 t a x y x1 y1 :
  clamped scr bounds w h a x y = (x1, y1) ->
  collides scr bounds w h t a x y 0
  = intersects bounds
      {| rect_x := x1; rect_y := y1; rect_w := w; rect_h := h |}.
Proof. intros E. unfold collides. by rewrite (attempt_0 _ _ _ _ _ _ E). Qed.

Lemma collides_S t a x y x1 y1 k :
  clamped scr bounds w h a x y = (x1, y1) ->
  collides scr bounds w h t a x y (S k)
  = collides scr bounds w h (S t) (next_align t a) x1 y1 k.
Proof. intros E. unfold collides. by rewrite (attempt_S _ _ _ _ _ _ _ E). Qed.

Lemma place_Placed n : forall t a x y a' x' y',
  place scr bounds w h n t a x y = Placed a' x' y' <->
  exists k, (k < n)%nat /\
    attempt scr bounds w h t a x y k = (a', x', y') /\
    collides scr bounds w h t a x y k = false /\
    forall j, (j < k)%nat -> collides scr bounds w h t a x y j = true.
Proof.
  induction n as [|n IH]; intros t a x y a' x' y'.
  { simpl. split; [discriminate|]. intros (k & Hk & _). lia. }
  simpl place. destruct (clamped scr bounds w h a x y) as [x1 y1] eqn:E.
  destruct (intersects bounds _) eqn:I.
  - rewrite IH. split.
    + intros (k & Hk & Ha & Hc & Hall). exists (S k).
      rewrite (attempt_S _ _ _ _ _ _ _ E), (collides_S _ _ _ _ _ _ _ E).
      repeat split; [lia|done|done|].
      intros [|j] Hj.
      * by rewrite (collides_0 _ _ _ _ _ _ E).
      * rewrite (collides_S _ _ _ _ _ _ _ E). apply Hall. lia.
    + intros ([|k] & Hk & Ha & Hc & Hall).
      { rewrite (collides_0 _ _ _ _ _ _ E) in Hc. congruence. }
      exists k.
      rewrite (attempt_S _ _ _ _ _ _ _ E) in Ha.
      rewrite (collides_S _ _ _ _ _ _ _ E) in Hc.
      repeat split; [lia|done|done|].
      intros j Hj. rewrite <- (collides_S _ _ _ _ _ _ _ E). apply Hall. lia.
  - split.
    + intros [= <- <- <-]. exists 0%nat.
      rewrite (attempt_0 _ _ _ _ _ _ E), (collides_0 _ _ _ _ _ _ E).
      repeat split; [lia|done|]. intros j Hj. lia.
    + intros ([|k] & Hk & Ha & Hc & Hall).
      * rewrite (attempt_0 _ _ _ _ _ _ E) in Ha. congruence.
      * specialize (Hall 0%nat ltac:(lia)).
        rewrite (collides_0 _ _ _ _ _ _ E) in Hall. congruence.
Qed.

Lemma place_NoRoom n : forall t a x y,
  place scr bounds w h n t a x y = NoRoom <->
  forall k, (k < n)%nat -> collides scr bounds w h t a x y k = true.
Proof.
  induction n as [|n IH]; intros t a x y.
  { simpl. split; [|done]. intros _ k Hk. lia. }
  simpl place. destruct (clamped scr bounds w h a x y) as [x1 y1] eqn:E.
  destruct (intersects bounds _) eqn:I.
  - rewrite IH. split.
    + intros Hall [|k] Hk.
      * by rewrite (collides_0 _ _ _ _ _ _ E).
      * rewrite (collides_S _ _ _ _ _ _ _ E). apply Hall. lia.
    + intros Hall k Hk. rewrite <- (collides_S _ _ _ _ _ _ _ E).
      apply Hall. lia.
  - split; [discriminate|]. intros Hall.
    specialize (Hall 0%nat ltac:(lia)).
    rewrite (collides_0 _ _ _ _ _ _ E) in Hall. congruence.
Qed.

(** Every attempt is a clamped origin. *)
Lemma attempt_within k : forall t a x y a' x' y',
  (forall lo v hi, lo <= hi -> lo <= MID lo v hi <= hi) ->
  w <= display_w scr -> h <= display_h scr ->
  attempt scr bounds w h t a x y k = (a', x', y') ->
  0 <= x' /\ x' + w <= display_w scr /\ 0 <= y' /\ y' + h <= display_h scr.
Proof.
  induction k as [|k IH]; intros t a x y a' x' y' Hmid Hw Hh.
  - simpl. unfold clamped.
    destruct (candidate bounds w h a x y) as [cx cy].
    intros [= _ <- <-].
    pose proof (Hmid 0 cx (display_w scr - w) ltac:(lia)).
    pose proof (Hmid 0 cy (display_h scr - h) ltac:(lia)). lia.
  - destruct (clamped scr bounds w h a x y) as [x1 y1] eqn:E.
    rewrite (attempt_S _ _ _ _ _ _ _ E). by apply IH.
Qed.

(** The same on one axis, from what [MID] does there alone. *)
Lemma attempt_within_x k : forall t a x y a' x' y',
  (forall lo v hi, lo <= hi -> lo <= MID lo v hi <= hi) ->
  w <= display_w scr ->
  attempt scr bounds w h t a x y k = (a', x', y') ->
  0 <= x' /\ x' + w <= display_w scr.
Proof.
  induction k as [|k IH]; intros t a x y a' x' y' Hmid Hw.
  - simpl. unfold clamped.
    destruct (candidate bounds w h a x y) as [cx cy].
    intros [= _ <- _].
    pose proof (Hmid 0 cx (display_w scr - w) ltac:(lia)). lia.
  - destruct (clamped scr bounds w h a x y) as [x1 y1] eqn:E.
    rewrite (attempt_S _ _ _ _ _ _ _ E). by apply IH.
Qed.

Lemma attempt_within_y k : forall t a x y a' x' y',
  (forall lo v hi, lo <= hi -> lo <= MID lo v hi <= hi) ->
  h <= display_h scr ->
  attempt scr bounds w h t a x y k = (a', x', y') ->
  0 <= y' /\ y' + h <= display_h scr.
Proof.
  induction k as [|k IH]; intros t a x y a' x' y' Hmid Hh.
  - simpl. unfold clamped.
    destruct (candidate bounds w h a x y) as [cx cy].
    intros [= _ _ <-].
    pose proof (Hmid 0 cy (display_h scr - h) ltac:(lia)). lia.
  - destruct (clamped scr bounds w h a x y) as [x1 y1] eqn:E.
    rewrite (attempt_S _ _ _ _ _ _ _ E). by apply IH.
Qed.

End Search.

(** *** The timer tick *)

(** The tick when no popup is open, with the size of the remapped popup
    read off the screen. *)
Lemma onTick_closed scr s t wd :
  m_timer s = Some t ->
  m_tipWindow s = None ->
  widget (m_target s) = Some wd ->
  onTick scr s =
  let T := getBounds scr wd in
  let txt := text (tipInfo (m_target s)) in
  let sz := preferred_size scr txt in
  match place scr T (size_w sz) (size_h sz) 4 0
          (arrowAlign (tipInfo (m_target s)))
          (mouse_x scr + 12 * guiscale scr)
          (mouse_y scr + 12 * guiscale scr) with
  | Placed a x1 y1 =>
      Some (set_timer_window s (Timer_stop t)
              (Some {| tw_text := txt; tw_target := T; m_arrowAlign := a;
                       tw_bounds := {| rect_x := x1; rect_y := y1;
                                       rect_w := size_w sz;
                                       rect_h := size_h sz |};
                       tw_open := true |}))
  | NoRoom => Some (set_timer_window s (Timer_stop t) None)
  end.
Proof. intros Ht Hwin Hwd. unfold onTick. by rewrite Ht, Hwin, Hwd. Qed.

(** C2, as the code has it. For every target, alignment, popup size and
    display: the tick either finds all four attempts of the alternate
    sequence colliding with the target and opens nothing, or opens the
    popup at the first attempt that does not collide, and the opened popup
    does not intersect the target. The popup lies inside
    [[0, display_w]] horizontally when it is no wider than the display,
    and inside [[0, display_h]] vertically when it is no taller ([MID]
    clamping into its bounds when they are in order). *)
Theorem onTick_placement scr s t wd :
  let T := getBounds scr wd in
  let sz := preferred_size scr (text (tipInfo (m_target s))) in
  let a0 := arrowAlign (tipInfo (m_target s)) in
  let x0 := mouse_x scr + 12 * guiscale scr in
  let y0 := mouse_y scr + 12 * guiscale scr in
  m_timer s = Some t ->
  m_tipWindow s = None ->
  widget (m_target s) = Some wd ->
  exists s', onTick scr s = Some s' /\
    ((m_tipWindow s' = None /\
      forall k, (k < 4)%nat ->
        collides scr T (size_w sz) (size_h sz) 0 a0 x0 y0 k = true)
     \/
     exists win k,
       m_tipWindow s' = Some win /\ tw_open win = true /\
       (k < 4)%nat /\
       (forall j, (j < k)%nat ->
          collides scr T (size_w sz) (size_h sz) 0 a0 x0 y0 j = true) /\
       collides scr T (size_w sz) (size_h sz) 0 a0 x0 y0 k = false /\
       attempt scr T (size_w sz) (size_h sz) 0 a0 x0 y0 k
       = (m_arrowAlign win, rect_x (tw_bounds win), rect_y (tw_bounds win)) /\
       rect_w (tw_bounds win) = size_w sz /\
       rect_h (tw_bounds win) = size_h sz /\
       intersects T (tw_bounds win) = false /\
       ((forall lo v hi, lo <= hi -> lo <= MID lo v hi <= hi) ->
        size_w sz <= display_w scr ->
        0 <= rect_x (tw_bounds win) /\
        rect_x (tw_bounds win) + rect_w (tw_bounds win) <= display_w scr) /\
       ((forall lo v hi, lo <= hi -> lo <= MID lo v hi <= hi) ->
        size_h sz <= display_h scr ->
        0 <= rect_y (tw_bounds win) /\
        rect_y (tw_bounds win) + rect_h (tw_bounds win) <= display_h scr)).
Proof.
  intros T sz a0 x0 y0 Ht Hwin Hwd.
  rewrite (onTick_closed _ _ _ _ Ht Hwin Hwd). cbv zeta.
  fold T sz a0 x0 y0.
  destruct (place scr T (size_w sz) (size_h sz) 4 0 a0 x0 y0)
    as [a x y|] eqn:Hp.
  - eexists. split; [reflexivity|]. right.
    apply place_Placed in Hp as (k & Hk & Ha & Hc & Hall).
    eexists _, k. simpl.
    split; [done|]. split; [done|]. split; [done|]. split; [done|].
    split; [done|]. split; [done|]. split; [done|]. split; [done|].
    split; [|split].
    + unfold collides in Hc. by rewrite Ha in Hc.
    + intros Hmid Hw.
      exact (attempt_within_x _ _ _ _ _ _ _ _ _ _ _ _ Hmid Hw Ha).
    + intros Hmid Hh.
      exact (attempt_within_y _ _ _ _ _ _ _ _ _ _ _ _ Hmid Hh Ha).
  - eexists. split; [reflexivity|]. left. simpl. split; [done|].
    by apply place_NoRoom.
Qed.

(** C3. When all four attempts collide with the target, the tick opens no
    popup, leaves the timer stopped and the engine idle, and returns
    normally. *)
Theorem onTick_no_room scr s t wd :
  let T := getBounds scr wd in
  let sz := preferred_size scr (text (tipInfo (m_target s))) in
  let a0 := arrowAlign (tipInfo (m_target s)) in
  let x0 := mouse_x scr + 12 * guiscale scr in
  let y0 := mouse_y scr + 12 * guiscale scr in
  m_timer s = Some t ->
  m_tipWindow s = None ->
  widget (m_target s) = Some wd ->
  (forall k, (k < 4)%nat ->
     collides scr T (size_w sz) (size_h sz) 0 a0 x0 y0 k = true) ->
  exists s', onTick scr s = Some s' /\
    m_tipWindow s' = None /\
    timer_running s' = false /\
    phase_of s' = Idle /\
    m_tips s' = m_tips s /\
    m_target s' = m_target s.
Proof.
  intros T sz a0 x0 y0 Ht Hwin Hwd Hall.
  rewrite (onTick_closed _ _ _ _ Ht Hwin Hwd). cbv zeta.
  fold T sz a0 x0 y0.
  apply place_NoRoom in Hall. rewrite Hall.
  eexists. split; [reflexivity|]. done.
Qed.


(** *** Messages *)

(** C8. In every state, a key-down, mouse-down or mouse-leave message
    leaves no popup open and no timer running: the engine is idle, whatever
    it was before. *)
Theorem dismiss_to_idle s msg :
  type msg = kKeyDownMessage \/ type msg = kMouseDownMessage
  \/ type msg = kMouseLeaveMessage ->
  let s' := fst (onProcessMessage s msg) in
  m_tipWindow s' = None /\
  timer_running s' = false /\
  phase_of s' = Idle /\
  snd (onProcessMessage s msg) = false /\
  m_tips s' = m_tips s /\
  m_target s' = m_target s.
Proof.
  intros Hty. unfold onProcessMessage, phase_of, timer_running.
  destruct Hty as [-> | [-> | ->]]; simpl; by destruct (m_timer s).
Qed.

Lemma foldl_enter_tips l : forall s,
  m_tips (foldl enter_widget s l) = m_tips s.
Proof.
  induction l as [|v l IH]; intros s; simpl; [done|].
  rewrite IH. unfold enter_widget. by destruct (m_tips s !! v).
Qed.

Lemma foldl_enter_window l : forall s,
  m_tipWindow (foldl enter_widget s l) = m_tipWindow s.
Proof.
  induction l as [|v l IH]; intros s; simpl; [done|].
  rewrite IH. unfold enter_widget. by destruct (m_tips s !! v).
Qed.

Lemma foldl_enter_unregistered l : forall s,
  Forall (fun v => m_tips s !! v = None) l ->
  foldl enter_widget s l = s.
Proof.
  induction l as [|v l IH]; intros s Hl; simpl; [done|].
  apply Forall_cons in Hl as [Hv Hl].
  unfold enter_widget at 2. rewrite Hv. by apply IH.
Qed.

(** C9, as the code has it. A hover-enter over a widget with a tip makes
    that widget the target and starts the timer, whatever session was
    active, and nothing is queued. With no popup open, the popup that the
    next tick opens is the new target's; with a popup open, that popup
    stays as it is and the next tick opens nothing. *)
Theorem hover_enter_retargets scr s msg (pre post : list Widget) wd ti :
  type msg = kMouseEnterMessage ->
  recipients msg = pre ++ wd :: post ->
  m_tips s !! wd = Some ti ->
  Forall (fun v => m_tips s !! v = None) post ->
  let s1 := fst (onProcessMessage s msg) in
  m_target s1 = {| widget := Some wd; tipInfo := ti |} /\
  timer_running s1 = true /\
  m_tipWindow s1 = m_tipWindow s /\
  exists s2, onTick scr s1 = Some s2 /\
    timer_running s2 = false /\
    m_target s2 = m_target s1 /\
    match m_tipWindow s with
    | None =>
        forall win, m_tipWindow s2 = Some win ->
          tw_text win = text ti /\ tw_target win = getBounds scr wd /\
          tw_open win = true
    | Some old => m_tipWindow s2 = Some old
    end.
Proof.
  intros Hty Hrec Hti Hpost. unfold onProcessMessage. rewrite Hty, Hrec.
  simpl. rewrite foldl_app. simpl.
  set (s0 := foldl enter_widget s pre).
  assert (Htips : m_tips s0 = m_tips s) by apply foldl_enter_tips.
  assert (Hwin0 : m_tipWindow s0 = m_tipWindow s) by apply foldl_enter_window.
  assert (Hs1 : exists t,
    enter_widget s0 wd =
    {| m_tips := m_tips s; m_target := {| widget := Some wd; tipInfo := ti |};
       m_timer := Some (Timer_start t); m_tipWindow := m_tipWindow s |}).
  { unfold enter_widget. rewrite Htips, Hti, Hwin0. by eexists. }
  destruct Hs1 as [t Hs1].
  rewrite foldl_enter_unregistered; cycle 1.
  { rewrite Hs1. simpl. done. }
  rewrite Hs1. clear Hs1. cbv zeta.
  split; [done|]. split; [done|]. split; [done|].
  destruct (m_tipWindow s) as [old|] eqn:Hold.
  - eexists. split; [reflexivity|]. done.
  - erewrite onTick_closed; [|reflexivity..]. cbv zeta.
    destruct (place _ _ _ _ _ _ _ _ _); eexists;
      (split; [reflexivity|]); (split; [done|]); (split; [done|]);
      simpl; intros win; [|done].
    by intros [= <-].
Qed.

End Engine.

(** *** The preferred size of the popup *)

Section PreferredSize.

Context {Font : Type}.
Variable fitString : Font -> string -> Z -> Z -> Size.

Lemma MAX_max x y : MAX x y = Z.max x y.
Proof. unfold MAX. destruct (Z.gtb_spec x y); lia. Qed.

Lemma foldr_max_base (g : Size -> Z) (l : list Size) a b :
  foldr (fun c r => Z.max (g c) r) (Z.max a b) l
  = Z.max b (foldr (fun c r => Z.max (g c) r) a l).
Proof. induction l as [|d l IH]; simpl; [lia|]. rewrite IH. lia. Qed.

Lemma foldl_grow_w children : forall acc,
  size_w (foldl grow acc children)
  = foldr (fun c r => Z.max (size_w c) r) (size_w acc) children.
Proof.
  induction children as [|c children IH]; intros acc; simpl; [done|].
  rewrite IH. simpl. rewrite MAX_max. apply foldr_max_base.
Qed.

Lemma foldl_grow_h children : forall acc,
  size_h (foldl grow acc children)
  = foldr (fun c r => Z.max (size_h c) r) (size_h acc) children.
Proof.
  induction children as [|c children IH]; intros acc; simpl; [done|].
  rewrite IH. simpl. rewrite MAX_max. apply foldr_max_base.
Qed.

(** C4, as the code has it. The preferred size is the text fitted to the
    client width less the horizontal border, plus the border; with
    children, the width is the larger of the text width and the widest
    child (plus the horizontal border) and the height grows by the height
    of the tallest child, not by the sum of the heights. *)
Theorem onPreferredSize_spec font txt clientBounds border_width align
  (children : list Size) :
  let fit := fitString font txt
               (rect_w clientBounds
                - (border_l border_width + border_r border_width)) align in
  onPreferredSize fitString font txt clientBounds border_width align children
  = match children with
    | [] =>
        {| size_w := size_w fit + border_l border_width
                     + border_r border_width;
           size_h := size_h fit + border_t border_width
                     + border_b border_width |}
    | _ :: _ =>
        {| size_w := Z.max (size_w fit) (max_width children)
                     + border_l border_width + border_r border_width;
           size_h := size_h fit + border_t border_width
                     + border_b border_width + max_height children |}
    end.
Proof.
  intros fit. unfold onPreferredSize. simpl rect_w. fold fit.
  destruct children as [|c children]; cbv zeta.
  - f_equal; lia.
  - rewrite foldl_grow_w, foldl_grow_h, MAX_max.
    unfold max_width, max_height. cbn [size_w size_h].
    generalize (foldr (fun c0 r => Z.max (size_w c0) r) 0 (c :: children)).
    generalize (foldr (fun c0 r => Z.max (size_h c0) r) 0 (c :: children)).
    intros mh mw. f_equal; lia.
Qed.

End PreferredSize.

(** *** The theorems at the example toolkit *)

#[local] Existing Instance Example.toolkit.

Lemma MID_median_clamps lo v hi :
  lo <= hi -> lo <= Example.MID_median lo v hi <= hi.
Proof.
  intros Hle. unfold Example.MID_median.
  destruct (Z.gtb_spec lo v), (Z.gtb_spec v hi), (Z.gtb_spec lo hi),
    (Z.gtb_spec hi lo); lia.
Qed.

Lemma MID_maxmin_clamps lo v hi :
  lo <= hi -> lo <= Example.MID_maxmin lo v hi <= hi.
Proof.
  intros Hle. unfold Example.MID_maxmin. rewrite MAX_max.
  destruct (Z.ltb_spec v hi); lia.
Qed.

(** The example of the specification: target [(100,100,50,20)], display
    800 x 600, popup 60 x 30, arrow at the bottom right. The first attempt
    succeeds, above and left of the target. *)
Example tick_on_button :
  m_tipWindow <$> onTick (Example.screen 60 30) Example.pending
  = Some (Some {| tw_text := "Lock";
                  tw_target := Example.bounds_of Example.button;
                  m_arrowAlign := 144;
                  tw_bounds := {| rect_x := 40; rect_y := 70;
                                  rect_w := 60; rect_h := 30 |};
                  tw_open := true |}).
Proof. reflexivity. Qed.

Lemma onTick_placement_witness :
  m_timer Example.pending = Some (Timer_start (new_Timer 300)) /\
  m_tipWindow Example.pending = None /\
  widget (m_target Example.pending) = Some Example.button /\
  (forall lo v hi, lo <= hi -> lo <= MID lo v hi <= hi) /\
  60 <= display_w (Example.screen 60 30) /\
  30 <= display_h (Example.screen 60 30) /\
  exists s', onTick (Example.screen 60 30) Example.pending = Some s' /\
    ((m_tipWindow s' = None /\
      forall k, (k < 4)%nat ->
        collides (Example.screen 60 30) (Example.bounds_of Example.button)
          60 30 0 144 122 117 k = true)
     \/
     exists win k,
       m_tipWindow s' = Some win /\ tw_open win = true /\
       (k < 4)%nat /\
       (forall j, (j < k)%nat ->
          collides (Example.screen 60 30) (Example.bounds_of Example.button)
            60 30 0 144 122 117 j = true) /\
       collides (Example.screen 60 30) (Example.bounds_of Example.button)
         60 30 0 144 122 117 k = false /\
       attempt (Example.screen 60 30) (Example.bounds_of Example.button)
         60 30 0 144 122 117 k
       = (m_arrowAlign win, rect_x (tw_bounds win), rect_y (tw_bounds win)) /\
       rect_w (tw_bounds win) = 60 /\
       rect_h (tw_bounds win) = 30 /\
       intersects (Example.bounds_of Example.button) (tw_bounds win) = false /\
       (0 <= rect_x (tw_bounds win) /\
        rect_x (tw_bounds win) + rect_w (tw_bounds win) <= 800) /\
       (0 <= rect_y (tw_bounds win) /\
        rect_y (tw_bounds win) + rect_h (tw_bounds win) <= 600)).
Proof.
  assert (H60 : 60 <= display_w (Example.screen 60 30)) by (simpl; lia).
  assert (H30 : 30 <= display_h (Example.screen 60 30)) by (simpl; lia).
  repeat (split; [first [exact MID_median_clamps | reflexivity | assumption]|]).
  destruct (onTick_placement (Example.screen 60 30) Example.pending
              (Timer_start (new_Timer 300)) Example.button
              eq_refl eq_refl eq_refl)
    as (s' & Hs' & [Hnone | (win & k & Hwin & Hopen & Hk & Hbefore & Hfree
                              & Hat & Hw & Hh & Hclear & Hx & Hy)]).
  - exists s'. split; [exact Hs'|]. left. exact Hnone.
  - exists s'. split; [exact Hs'|]. right. exists win, k.
    repeat (split; [assumption|]).
    split; [exact (Hx MID_median_clamps H60)|exact (Hy MID_median_clamps H30)].
Defined.

(** A popup wider than the display but no taller: it is still inside the
    display vertically. *)
Example wide_popup_vertical :
  tw_bounds <$> (onTick (Example.screen 900 30) Example.pending ≫= m_tipWindow)
  = Some {| rect_x := -100; rect_y := 70; rect_w := 900; rect_h := 30 |}.
Proof. reflexivity. Qed.

(** C2, as stated, fails: a popup taller than the display is opened all the
    same (it does not touch the target), and it cannot lie inside the
    display. *)
Lemma tall_popup_leaves_display :
  exists s' win,
    onTick (Example.screen 60 700) Example.pending = Some s' /\
    m_tipWindow s' = Some win /\
    tw_open win = true /\
    intersects (Example.bounds_of Example.button) (tw_bounds win) = false /\
    tw_bounds win
    = {| rect_x := 40; rect_y := -100; rect_w := 60; rect_h := 700 |} /\
    ~ (0 <= rect_y (tw_bounds win) /\
       rect_y (tw_bounds win) + rect_h (tw_bounds win)
       <= display_h (Example.screen 60 700)).
Proof.
  eexists _, _. split; [reflexivity|].
  split; [reflexivity|]. split; [reflexivity|]. split; [reflexivity|].
  split; [reflexivity|]. simpl. lia.
Qed.

(** The same with [MID] read as [MAX(x, MIN(y, z))]: the popup sits at the
    top and runs past the bottom of the display. *)
Example tall_popup_leaves_display_maxmin :
  tw_bounds <$>
    (onTick (TK := Example.toolkit_with Example.MID_maxmin)
       (Example.screen 60 700) Example.pending ≫= m_tipWindow)
  = Some {| rect_x := 40; rect_y := 0; rect_w := 60; rect_h := 700 |}.
Proof. reflexivity. Qed.

Lemma covered_all_collide k :
  (k < 4)%nat ->
  collides Example.covered (getBounds Example.covered Example.button)
    10 10 0 144 62 62 k = true.
Proof.
  intros Hk. destruct k as [|[|[|[|k]]]]; [reflexivity..|lia].
Qed.

Lemma onTick_no_room_witness :
  m_timer Example.pending = Some (Timer_start (new_Timer 300)) /\
  m_tipWindow Example.pending = None /\
  widget (m_target Example.pending) = Some Example.button /\
  (forall k, (k < 4)%nat ->
     collides Example.covered (getBounds Example.covered Example.button)
       10 10 0 144 62 62 k = true) /\
  exists s', onTick Example.covered Example.pending = Some s' /\
    m_tipWindow s' = None /\
    timer_running s' = false /\
    phase_of s' = Idle /\
    m_tips s' = m_tips Example.pending /\
    m_target s' = m_target Example.pending.
Proof.
  repeat (split; [first [reflexivity | exact covered_all_collide]|]).
  exact (onTick_no_room Example.covered Example.pending
           (Timer_start (new_Timer 300)) Example.button
           eq_refl eq_refl eq_refl covered_all_collide).
Defined.


Lemma dismiss_to_idle_witness :
  (type Example.key_down = kKeyDownMessage
   \/ type Example.key_down = kMouseDownMessage
   \/ type Example.key_down = kMouseLeaveMessage) /\
  phase_of Example.rehovered = Shown /\
  timer_running Example.rehovered = true /\
  m_tipWindow (fst (onProcessMessage Example.rehovered Example.key_down))
  = None /\
  timer_running (fst (onProcessMessage Example.rehovered Example.key_down))
  = false /\
  phase_of (fst (onProcessMessage Example.rehovered Example.key_down))
  = Idle /\
  snd (onProcessMessage Example.rehovered Example.key_down) = false /\
  m_tips (fst (onProcessMessage Example.rehovered Example.key_down))
  = m_tips Example.rehovered /\
  m_target (fst (onProcessMessage Example.rehovered Example.key_down))
  = m_target Example.rehovered.
Proof.
  assert (Hty : type Example.key_down = kKeyDownMessage
                \/ type Example.key_down = kMouseDownMessage
                \/ type Example.key_down = kMouseLeaveMessage)
    by (left; reflexivity).
  split; [exact Hty|]. split; [reflexivity|]. split; [reflexivity|].
  exact (dismiss_to_idle Example.rehovered Example.key_down Hty).
Defined.

Lemma hover_enter_retargets_witness :
  type (Example.enter Example.slider) = kMouseEnterMessage /\
  recipients (Example.enter Example.slider) = [] ++ Example.slider :: [] /\
  m_tips Example.pending !! Example.slider = Some Example.value_tip /\
  Forall (fun v : Widget => m_tips Example.pending !! v = None) [] /\
  m_target Example.retargeted
  = {| widget := Some Example.slider; tipInfo := Example.value_tip |} /\
  timer_running Example.retargeted = true /\
  m_tipWindow Example.retargeted = m_tipWindow Example.pending /\
  exists s2, onTick (Example.screen 60 30) Example.retargeted = Some s2 /\
    timer_running s2 = false /\
    m_target s2 = m_target Example.retargeted /\
    forall win, m_tipWindow s2 = Some win ->
      tw_text win = "Value"%string /\
      tw_target win = Example.bounds_of Example.slider /\
      tw_open win = true.
Proof.
  assert (Hti : m_tips Example.pending !! Example.slider
                = Some Example.value_tip) by reflexivity.
  assert (Hpost : Forall (fun v : Widget => m_tips Example.pending !! v = None)
                    []) by constructor.
  split; [reflexivity|]. split; [reflexivity|].
  split; [exact Hti|]. split; [exact Hpost|].
  exact (hover_enter_retargets (Example.screen 60 30) Example.pending
           (Example.enter Example.slider) [] [] Example.slider
           Example.value_tip eq_refl eq_refl Hti Hpost).
Defined.

(** C9, as stated, fails in the shown state: the button's popup is open,
    the slider is hovered, the timer fires, and the popup on the screen is
    still the button's. *)
Lemma hover_enter_while_shown_keeps_popup :
  phase_of Example.shown = Shown /\
  m_target Example.rehovered
  = {| widget := Some Example.slider; tipInfo := Example.value_tip |} /\
  timer_running Example.rehovered = true /\
  exists s2 win,
    onTick (Example.screen 60 30) Example.rehovered = Some s2 /\
    m_tipWindow s2 = Some win /\
    tw_text win = "Lock"%string /\
    tw_target win = Example.bounds_of Example.button /\
    tw_text win <> text Example.value_tip /\
    tw_target win <> Example.bounds_of Example.slider.
Proof.
  split; [reflexivity|]. split; [reflexivity|].
  split; [reflexivity|]. eexists _, _. split; [reflexivity|].
  split; [reflexivity|]. split; [reflexivity|]. split; [reflexivity|].
  split; discriminate.
Qed.

(** C4, as stated, fails: with two children of heights 10 and 20 the
    preferred height grows by 20, not by their sum. *)
Lemma preferred_height_is_not_the_sum :
  onPreferredSize Example.fit_fixed tt "Lock" Example.client
    Example.tip_border 0 Example.two_children
  = {| size_w := 52; size_h := 45 |} /\
  described_size Example.fit_fixed tt "Lock" Example.client
    Example.tip_border 0 Example.two_children
  = {| size_w := 52; size_h := 55 |} /\
  onPreferredSize Example.fit_fixed tt "Lock" Example.client
    Example.tip_border 0 Example.two_children
  <> described_size Example.fit_fixed tt "Lock" Example.client
       Example.tip_border 0 Example.two_children.
Proof. split; [reflexivity|]. split; [reflexivity|]. discriminate. Qed.

End TooltipsSpec.

(** * Further properties of the command registry *)

Module CommandsMore.
Import Commands.

Section Registry.

Context {App JAccel : Type} `{!Jinete JAccel}.

Local Abbreviation Command := (Command (App := App) (JAccel := JAccel)).
Local Abbreviation registry := (registry (App := App) (JAccel := JAccel)).
Local Abbreviation World := (World (App := App)).

Implicit Types (c : Command) (commands : registry) (w : World).

(** X1. [command_get_by_name] answers with a command exactly when that
    command is the first of the table with the name asked for, and answers
    not-found exactly when no command of the table has the name. *)
Theorem command_get_by_name_first_match commands (n : string) :
  (forall c, command_get_by_name commands (Some n) = Some c <->
     exists pre rest, commands = pre ++ c :: rest /\ name c = n /\
       Forall (fun c' => name c' <> n) pre) /\
  (command_get_by_name commands (Some n) = None <->
     Forall (fun c => name c <> n) commands).
Proof.
  simpl. split.
  - intros c. split.
    + induction commands as [|c0 commands IH]; simpl; [discriminate|].
      destruct (decide (name c0 = n)) as [Heq|Hne].
      * intros [= <-]. by exists [], commands.
      * intros Hc. destruct (IH Hc) as (pre & rest & -> & Hn & Hpre).
        exists (c0 :: pre), rest. by repeat constructor.
    + intros (pre & rest & -> & <- & Hpre).
      by apply (CommandsSpec.get_by_name_loop_first _ pre rest).
  - split; [|apply CommandsSpec.get_by_name_loop_none].
    induction commands as [|c0 commands IH]; simpl; [constructor|].
    destruct (decide (name c0 = n)); [discriminate|].
    intros Hc. constructor; [done|by apply IH].
Qed.

(** X2. [command_get_by_key] answers with a command exactly when that
    command is the first of the table whose accelerator matches the
    message, and not-found exactly when none matches; a command that is
    returned has an accelerator. *)
Theorem command_get_by_key_first_match commands msg :
  (forall c, command_get_by_key commands msg = Some c <->
     exists pre rest, commands = pre ++ c :: rest /\
       command_is_key_pressed c msg = true /\
       Forall (fun c' => command_is_key_pressed c' msg = false) pre) /\
  (command_get_by_key commands msg = None <->
     Forall (fun c => command_is_key_pressed c msg = false) commands) /\
  (forall c, command_get_by_key commands msg = Some c -> is_Some (accel c)).
Proof.
  assert (Hfound : forall c, command_get_by_key commands msg = Some c ->
    exists pre rest, commands = pre ++ c :: rest /\
      command_is_key_pressed c msg = true /\
      Forall (fun c' => command_is_key_pressed c' msg = false) pre).
  { intros c. induction commands as [|c0 commands IH]; simpl; [discriminate|].
    destruct (command_is_key_pressed c0 msg) eqn:E.
    - intros [= <-]. by exists [], commands.
    - intros Hc. destruct (IH Hc) as (pre & rest & -> & Hn & Hpre).
      exists (c0 :: pre), rest. by repeat constructor. }
  split; [|split].
  - intros c. split; [apply Hfound|].
    intros (pre & rest & -> & Hc & Hpre).
    by apply (CommandsSpec.get_by_key_first _ _ pre rest).
  - split; [|apply CommandsSpec.get_by_key_none].
    clear Hfound.
    induction commands as [|c0 commands IH]; simpl; [constructor|].
    destruct (command_is_key_pressed c0 msg) eqn:E; [discriminate|].
    intros Hc. constructor; [done|by apply IH].
  - intros c Hc. destruct (Hfound c Hc) as (_ & _ & _ & Hp & _).
    unfold command_is_key_pressed in Hp. by destruct (accel c).
Qed.

Lemma reset_keys_name c : name (reset_keys c) = name c.
Proof. unfold reset_keys. by destruct (accel c). Qed.

Lemma reset_keys_callables c :
  enabled (reset_keys c) = enabled c /\
  checked (reset_keys c) = checked c /\
  execute (reset_keys c) = execute c.
Proof. unfold reset_keys. by destruct (accel c). Qed.

(** X3. [command_reset_keys] keeps the table as it is but for the
    accelerators: the names stay in place, a lookup by name finds the same
    command (reset), and a reset command answers [command_is_enabled],
    [command_is_checked] and [command_execute] as before. *)
Theorem command_reset_keys_keeps_commands commands :
  name <$> command_reset_keys commands = name <$> commands /\
  (forall n, command_get_by_name (command_reset_keys commands) n
             = reset_keys <$> command_get_by_name commands n) /\
  (forall c argument w,
     command_is_enabled (Some (reset_keys c)) argument w
     = command_is_enabled (Some c) argument w /\
     command_is_checked (Some (reset_keys c)) argument w
     = command_is_checked (Some c) argument w /\
     command_execute (Some (reset_keys c)) argument w
     = command_execute (Some c) argument w).
Proof.
  split; [|split].
  - unfold command_reset_keys. rewrite <- list_fmap_compose.
    apply list_fmap_ext. intros i c _. apply reset_keys_name.
  - intros [n|]; [|done]. simpl.
    induction commands as [|c commands IH]; simpl; [done|].
    rewrite reset_keys_name. by destruct (decide (name c = n)).
  - intros c argument w.
    destruct (reset_keys_callables c) as (He & Hc & Hx).
    unfold command_execute, command_is_enabled, command_is_checked.
    by rewrite He, Hc, Hx.
Qed.

(** X4. Binding a key (a string that fits the 256-byte buffer with its
    brackets) to the command in slot [i] of the table and then resetting
    all keys gives the table that resetting alone gives; the bound command
    has an accelerator, the one it had or a new one, with the bracketed key
    string added. *)
Theorem command_add_key_then_reset (commands : list Command) (i : nat) c
  (s : string) :
  (String.length s + 2 < 256)%nat ->
  commands !! i = Some c ->
  command_reset_keys (<[i := command_add_key c s]> commands)
  = command_reset_keys commands /\
  accel (command_add_key c s)
  = Some (jaccel_add_keys_from_string (default jaccel_new (accel c))
            ("<" +:+ s +:+ ">")) /\
  name (command_add_key c s) = name c.
Proof.
  intros _ Hi. split; [|split];
    [| by unfold command_add_key; destruct (accel c) | done].
  unfold command_reset_keys. rewrite list_fmap_insert.
  apply list_insert_id. rewrite list_lookup_fmap, Hi. simpl. f_equal.
  unfold reset_keys, command_add_key. simpl.
  destruct c as [n e k x [a|]]; reflexivity.
Qed.

(** X5. Whatever the command does, the events of one [command_execute]
    begin with [ConsoleOpen]; the predicate is called at most once and
    before the body, the body at most once, both with the argument given;
    [command_execute] returns exactly when [ConsoleClose] is the last
    event, and when a call does not come back the console is left open. *)
Theorem command_execute_console (command : option Command) argument w :
  match command_execute command argument w with
  | Returned _ w' =>
      exists mid,
        trace w' = trace w ++ ConsoleOpen :: mid ++ [ConsoleClose] /\
        mid ∈ [ []; [EnabledCalled argument]; [ExecuteCalled argument];
                [EnabledCalled argument; ExecuteCalled argument] ]
  | Faulted w' =>
      exists mid,
        trace w' = trace w ++ ConsoleOpen :: mid /\
        mid ∈ [ [EnabledCalled argument]; [ExecuteCalled argument];
                [EnabledCalled argument; ExecuteCalled argument] ]
  end.
Proof.
  unfold command_execute, command_is_enabled, bind, console_open,
    console_close, invoke, ret, log.
  destruct command as [c|]; simpl.
  - destruct (execute c) as [f|]; simpl.
    + destruct (enabled c) as [g|]; simpl.
      * destruct (g argument (app_state w)) as [[] s1|s1]; simpl.
        -- destruct (f argument s1) as [[] s2|s2]; simpl;
             exists [EnabledCalled argument; ExecuteCalled argument];
             (split; [by rewrite <- !app_assoc
                     |apply list_elem_of_In; simpl; tauto]).
        -- exists [EnabledCalled argument].
           split; [by rewrite <- !app_assoc
                  |apply list_elem_of_In; simpl; tauto].
        -- exists [EnabledCalled argument].
           split; [by rewrite <- !app_assoc
                  |apply list_elem_of_In; simpl; tauto].
      * destruct (f argument (app_state w)) as [[] s2|s2]; simpl;
          exists [ExecuteCalled argument];
          (split; [by rewrite <- !app_assoc
                  |apply list_elem_of_In; simpl; tauto]).
    + exists []. split; [by rewrite <- !app_assoc
                        |apply list_elem_of_In; simpl; tauto].
  - exists []. split; [by rewrite <- !app_assoc
                      |apply list_elem_of_In; simpl; tauto].
Qed.

(** X6. For a null command and for a command without a body,
    [command_execute] opens and closes the console and does nothing else:
    the predicate is not consulted and the application state stays as it
    was, while [command_is_enabled] on a null command answers true. *)
Theorem command_execute_without_body (command : option Command) argument w :
  command = None \/ (exists c, command = Some c /\ execute c = None) ->
  command_execute command argument w
  = Returned tt {| trace := trace w ++ [ConsoleOpen; ConsoleClose];
                   app_state := app_state w |} /\
  command_is_enabled (JAccel := JAccel) None argument w = Returned true w.
Proof.
  intros Hc. split; [|done].
  unfold command_execute, bind, console_open, console_close, ret, log.
  destruct Hc as [->|(c & -> & ->)]; simpl; by rewrite <- app_assoc.
Qed.

End Registry.

Lemma command_get_by_name_first_match_witness :
  (exists pre rest,
     Example.commands = pre ++ Example.cmd_undo :: rest /\
     name Example.cmd_undo = "undo"%string /\
     Forall (fun c' => name c' <> "undo"%string) pre) /\
  Forall (fun c => name c <> "zoom"%string) Example.commands.
Proof.
  split.
  - destruct (command_get_by_name_first_match Example.commands "undo")
      as [Hfound _].
    apply (Hfound Example.cmd_undo). reflexivity.
  - destruct (command_get_by_name_first_match Example.commands "zoom")
      as [_ Hnone].
    apply Hnone. reflexivity.
Defined.

Lemma command_get_by_key_first_match_witness :
  command_get_by_key Example.commands Example.key_z = Some Example.cmd_undo /\
  (exists pre rest,
     Example.commands = pre ++ Example.cmd_undo :: rest /\
     command_is_key_pressed Example.cmd_undo Example.key_z = true /\
     Forall (fun c' => command_is_key_pressed c' Example.key_z = false) pre) /\
  is_Some (accel Example.cmd_undo).
Proof.
  destruct (command_get_by_key_first_match Example.commands Example.key_z)
    as (Hfound & _ & Haccel).
  split; [reflexivity|]. split.
  - apply (Hfound Example.cmd_undo). reflexivity.
  - apply Haccel. reflexivity.
Defined.

Lemma command_add_key_then_reset_witness :
  (String.length "c" + 2 < 256)%nat /\
  Example.commands !! 0%nat = Some Example.cmd_copy /\
  command_reset_keys
    (<[0%nat := command_add_key Example.cmd_copy "c"]> Example.commands)
  = command_reset_keys Example.commands /\
  accel (command_add_key Example.cmd_copy "c") = Some [(0, 99, 0)] /\
  name (command_add_key Example.cmd_copy "c") = "copy"%string.
Proof.
  assert (Hfit : (String.length "c" + 2 < 256)%nat) by (simpl; lia).
  split; [exact Hfit|]. split; [reflexivity|].
  exact (command_add_key_then_reset Example.commands 0 Example.cmd_copy "c"
           Hfit eq_refl).
Defined.

Lemma command_execute_without_body_witness :
  (Some Example.cmd_label = None
   \/ exists c, Some Example.cmd_label = Some c /\ execute c = None) /\
  command_execute (Some Example.cmd_label) None Example.w0
  = Returned tt {| trace := [ConsoleOpen; ConsoleClose];
                   app_state := 0%nat |} /\
  command_is_enabled (JAccel := list Example.chord) None None Example.w0
  = Returned true Example.w0.
Proof.
  assert (H : Some Example.cmd_label = None
              \/ exists c, Some Example.cmd_label = Some c
                           /\ execute c = None).
  { right. exists Example.cmd_label. split; reflexivity. }
  split; [exact H|].
  exact (command_execute_without_body (Some Example.cmd_label) None
           Example.w0 H).
Defined.

End CommandsMore.

(** * Further properties of the tooltip engine *)

Module TooltipsMore.
Import Tooltips.

Section Engine.

Context {TK : Toolkit}.

Implicit Types (s : TooltipManager) (scr : Screen) (bounds : Rect).

(** *** The tip table *)

Lemma enter_unregistered s msg :
  type msg = kMouseEnterMessage ->
  Forall (fun v => m_tips s !! v = None) (recipients msg) ->
  onProcessMessage s msg = (s, false).
Proof.
  intros Hty Hrec. unfold onProcessMessage. rewrite Hty.
  by rewrite TooltipsSpec.foldl_enter_unregistered.
Qed.

(** X7. Neither a message nor a timer tick changes the tip table: the
    engine reads [m_tips] and never writes it. *)
Theorem engine_keeps_tips s :
  (forall msg, m_tips (fst (onProcessMessage s msg)) = m_tips s) /\
  (forall scr s', onTick scr s = Some s' -> m_tips s' = m_tips s).
Proof.
  split.
  - intros msg. unfold onProcessMessage.
    destruct (type msg); simpl; try done.
    apply TooltipsSpec.foldl_enter_tips.
  - intros scr s'. unfold onTick.
    destruct (m_timer s) as [t|]; [|done].
    destruct (m_tipWindow s) as [win|]; [by intros [= <-]|].
    destruct (widget (m_target s)) as [wd|]; [|done].
    destruct (place _ _ _ _ _ _ _ _ _); by intros [= <-].
Qed.

(** X8. A hover-enter whose recipients have no tip changes nothing, and so
    does a hover-enter over a widget whose tip [removeTooltipFor] has just
    removed; removing the tip of a widget that has none leaves the manager
    as it is. *)
Theorem hover_without_tip s msg wd :
  type msg = kMouseEnterMessage ->
  (Forall (fun v => m_tips s !! v = None) (recipients msg) ->
   onProcessMessage s msg = (s, false)) /\
  (recipients msg = [wd] ->
   onProcessMessage (removeTooltipFor s wd) msg
   = (removeTooltipFor s wd, false)) /\
  (m_tips s !! wd = None -> removeTooltipFor s wd = s).
Proof.
  intros Hty. split; [|split].
  - by apply enter_unregistered.
  - intros Hrec. apply enter_unregistered; [done|]. rewrite Hrec.
    constructor; [|constructor]. simpl. apply lookup_delete_eq.
  - intros Hwd. unfold removeTooltipFor. rewrite delete_id by done.
    by destruct s.
Qed.

(** X9. A tip added with [addTooltipFor] is the one the next hover-enter
    over the widget takes as target, in place of any tip the widget had;
    the timer is started, with the fixed delay if it is created here; and
    removing the tip again gives back the table of a manager that had no
    tip for the widget. *)
Theorem add_then_hover s msg wd (txt : string) (align : Z) :
  type msg = kMouseEnterMessage ->
  recipients msg = [wd] ->
  let s1 := fst (onProcessMessage (addTooltipFor s wd txt align) msg) in
  m_target s1
  = {| widget := Some wd;
       tipInfo := {| text := txt; arrowAlign := align |} |} /\
  m_timer s1
  = Some (Timer_start (default (new_Timer kTooltipDelayMsecs) (m_timer s))) /\
  m_tipWindow s1 = m_tipWindow s /\
  (m_tips s !! wd = None ->
   removeTooltipFor (addTooltipFor s wd txt align) wd = s).
Proof.
  intros Hty Hrec. unfold onProcessMessage. rewrite Hty, Hrec. simpl.
  unfold enter_widget. simpl. rewrite lookup_insert_eq. simpl.
  split; [done|]. split; [by destruct (m_timer s)|]. split; [done|].
  intros Hwd. unfold removeTooltipFor, addTooltipFor. simpl.
  rewrite delete_insert_eq, delete_id by done. by destruct s.
Qed.

(** X10. The tick does not look at the tip table: adding or removing a
    tip, even the tip of the widget whose delay is running, changes
    nothing of what the tick does; the popup opens with the text and the
    alignment copied at hover-enter. *)
Theorem onTick_ignores_tips scr s wd (txt : string) (align : Z) :
  onTick scr (removeTooltipFor s wd)
  = (fun s' => removeTooltipFor s' wd) <$> onTick scr s /\
  onTick scr (addTooltipFor s wd txt align)
  = (fun s' => addTooltipFor s' wd txt align) <$> onTick scr s.
Proof.
  unfold onTick, removeTooltipFor, addTooltipFor.
  cbn [m_timer m_tipWindow m_target m_tips].
  destruct (m_timer s) as [t|]; [|done].
  destruct (m_tipWindow s) as [win|]; [done|].
  destruct (widget (m_target s)) as [v|]; [|done].
  by destruct (place _ _ _ _ _ _ _ _ _).
Qed.

(** *** The message loop *)

Lemma foldl_enter_target_set l : forall s,
  target_set s -> target_set (foldl enter_widget s l).
Proof.
  induction l as [|v l IH]; intros s Hs; simpl; [done|].
  apply IH. unfold enter_widget. destruct (m_tips s !! v); [|done].
  intros _. by eexists.
Qed.

Lemma message_target_set s msg :
  target_set s -> target_set (fst (onProcessMessage s msg)).
Proof.
  intros Hs. unfold onProcessMessage.
  destruct (type msg); simpl; try done;
    try (unfold target_set, timer_running; simpl;
         by destruct (m_timer s)).
  by apply foldl_enter_target_set.
Qed.

Lemma message_starts_timer s msg :
  timer_running (fst (onProcessMessage s msg)) = true ->
  timer_running s = true \/ is_enter (Deliver msg) = true.
Proof.
  unfold onProcessMessage, is_enter.
  destruct (type msg); simpl; auto;
    unfold timer_running; simpl; by destruct (m_timer s).
Qed.

Lemma tick_when_running scr s :
  timer_running s = true -> target_set s ->
  exists s', onTick scr s = Some s' /\ timer_running s' = false /\
    m_tips s' = m_tips s.
Proof.
  intros Hrun Hs. destruct (Hs Hrun) as [wd Hwd].
  unfold timer_running in Hrun. unfold onTick. rewrite Hwd.
  destruct (m_timer s) as [t|]; [|done].
  destruct (m_tipWindow s) as [win|]; [by eexists|].
  destruct (place _ _ _ _ _ _ _ _ _); by eexists.
Qed.

Lemma hover_enters_cons i inputs :
  hover_enters (i :: inputs)
  = ((if is_enter i then 1 else 0) + hover_enters inputs)%nat.
Proof.
  unfold hover_enters. rewrite filter_cons.
  destruct (is_enter i); by case_decide.
Qed.

(** X11. From a state in which a running timer has a target (the initial
    state is one), no sequence of messages and elapsed delays makes the
    engine dereference a null timer or a null target; the tip table is
    left as it was; and [onTick] runs at most once per hover-enter
    delivered, plus once if the timer was running at the start. *)
Theorem react_all_safe inputs : forall s,
  target_set s ->
  exists s' n, react_all s inputs = Some (s', n) /\
    (n <= (if timer_running s then 1 else 0) + hover_enters inputs)%nat /\
    target_set s' /\
    m_tips s' = m_tips s.
Proof.
  induction inputs as [|i inputs IH]; intros s Hs.
  { exists s, 0%nat. repeat split; [lia|done]. }
  rewrite hover_enters_cons.
  destruct i as [msg|scr]; cbn [react_all react].
  - destruct (IH (fst (onProcessMessage s msg)) (message_target_set _ msg Hs))
      as (s' & n & -> & Hn & Hs' & Htips).
    exists s', n. split; [done|]. split; [|split; [done|]].
    + pose proof (message_starts_timer s msg) as Hstart.
      destruct (timer_running (fst (onProcessMessage s msg))).
      * destruct (Hstart eq_refl) as [-> | ->]; lia.
      * destruct (is_enter (Deliver msg)), (timer_running s); lia.
    + rewrite Htips. unfold onProcessMessage.
      destruct (type msg); simpl; try done.
      apply TooltipsSpec.foldl_enter_tips.
  - destruct (timer_running s) eqn:Hrun.
    + destruct (tick_when_running scr s Hrun Hs) as (s1 & -> & Hoff & Ht1).
      destruct (IH s1) as (s' & n & -> & Hn & Hs' & Htips).
      { intros Hon. congruence. }
      exists s', (1 + n)%nat. rewrite Hoff in Hn.
      split; [done|]. split; [simpl; lia|]. split; [done|congruence].
    + destruct (IH s Hs) as (s' & n & -> & Hn & Hs' & Htips).
      exists s', n. rewrite Hrun in Hn. by repeat split.
Qed.

Lemma place_Placed_clear scr bounds w h n t a x y a' x' y' :
  place scr bounds w h n t a x y = Placed a' x' y' ->
  intersects bounds
    {| rect_x := x'; rect_y := y'; rect_w := w; rect_h := h |} = false.
Proof.
  intros Hp. apply TooltipsSpec.place_Placed in Hp as (k & _ & Ha & Hc & _).
  unfold collides in Hc. by rewrite Ha in Hc.
Qed.

Lemma react_popup_clear s i s' n :
  popup_clear s -> react s i = Some (s', n) -> popup_clear s'.
Proof.
  intros Hs. destruct i as [msg|scr]; simpl.
  - intros [= <- _]. unfold popup_clear, onProcessMessage.
    destruct (type msg); simpl; try done.
    by rewrite TooltipsSpec.foldl_enter_window.
  - destruct (timer_running s); [|by intros [= <- _]].
    destruct (onTick scr s) as [s1|] eqn:Htick; [|done].
    intros [= <- _]. revert Htick. unfold onTick.
    destruct (m_timer s) as [t|]; [|done].
    destruct (m_tipWindow s) as [old|] eqn:Hold.
    { intros [= <-]. intros win [= <-]. by apply Hs. }
    destruct (widget (m_target s)) as [wd|]; [|done].
    destruct (place _ _ _ _ _ _ _ _ _) as [a x1 y1|] eqn:Hp;
      intros [= <-]; intros win; [|done].
    intros [= <-]. split; [done|].
    apply place_Placed_clear in Hp. exact Hp.
Qed.

(** X19. Whatever messages and elapsed delays arrive, a popup that the
    manager holds is open and does not intersect the bounds its target had
    when the popup was opened. *)
Theorem react_all_popup_clear inputs : forall s s' n,
  popup_clear s -> react_all s inputs = Some (s', n) -> popup_clear s'.
Proof.
  induction inputs as [|i inputs IH]; intros s s' n Hs; simpl.
  { by intros [= <- _]. }
  destruct (react s i) as [[s1 n1]|] eqn:Hi; [|done].
  destruct (react_all s1 inputs) as [[s2 n2]|] eqn:Hrest; [|done].
  intros [= <- _]. apply (IH s1 s2 n2); [|done].
  by apply (react_popup_clear s i s1 n1).
Qed.

(** *** The candidates of the placement search *)

Lemma no_shared_pixel (this rc : Rect) :
  rect_x this + rect_w this <= rect_x rc \/
  rect_x rc + rect_w rc <= rect_x this \/
  rect_y this + rect_h this <= rect_y rc \/
  rect_y rc + rect_h rc <= rect_y this ->
  Example.rect_intersects this rc = false.
Proof.
  intros Hsep. unfold Example.rect_intersects.
  destruct (Example.isEmpty this || Example.isEmpty rc); [done|].
  destruct (Z.ltb_spec (rect_x rc) (rect_x this + rect_w this)),
    (Z.gtb_spec (rect_x rc + rect_w rc) (rect_x this)),
    (Z.ltb_spec (rect_y rc) (rect_y this + rect_h this)),
    (Z.gtb_spec (rect_y rc + rect_h rc) (rect_y this)); simpl; try done; lia.
Qed.

Lemma candidate_of_label bounds w h a x y :
  a ∈ case_labels ->
  let c := candidate bounds w h a x y in
  (fst c = rect_x bounds + rect_w bounds \/ fst c = rect_x bounds - w \/
   snd c = rect_y bounds + rect_h bounds \/ snd c = rect_y bounds - h) /\
  forall x' y', candidate bounds w h a x' y' = c.
Proof.
  intros Ha. unfold candidate.
  repeat (destruct (decide _); [cbn [fst snd]; split; [tauto|done]|]).
  exfalso. cbv [case_labels corner_labels side_labels app] in Ha.
  repeat (apply elem_of_cons in Ha as [->|Ha]; [done|]).
  by apply elem_of_nil in Ha.
Qed.

(** X12. Before clamping, the origin computed for any of the eight
    alignments puts the popup beside the target: the two rectangles share
    no pixel, whatever the sizes. *)
Theorem candidate_outside_target bounds w h a x y :
  a ∈ case_labels ->
  Example.rect_intersects bounds
    {| rect_x := fst (candidate bounds w h a x y);
       rect_y := snd (candidate bounds w h a x y);
       rect_w := w; rect_h := h |} = false.
Proof.
  intros Ha. apply no_shared_pixel. cbn [rect_x rect_y rect_w rect_h].
  destruct (candidate_of_label bounds w h a x y Ha) as [Hc _].
  cbv zeta in Hc. lia.
Qed.

(** X13. When the origin computed for the preferred alignment already lies
    inside the display, the search stops at its first pass: the popup is
    placed at that origin with the preferred alignment. (Of the toolkit
    this takes that [MID] leaves a value inside its bounds alone and that
    [intersects] is false for rectangles that share no pixel.) *)
Theorem place_with_room scr bounds w h a x y :
  (forall lo v hi, lo <= v <= hi -> MID lo v hi = v) ->
  (forall r1 r2, Example.rect_intersects r1 r2 = false ->
                 intersects r1 r2 = false) ->
  a ∈ case_labels ->
  0 <= fst (candidate bounds w h a x y) <= display_w scr - w ->
  0 <= snd (candidate bounds w h a x y) <= display_h scr - h ->
  place scr bounds w h 4 0 a x y
  = Placed a (fst (candidate bounds w h a x y))
      (snd (candidate bounds w h a x y)).
Proof.
  intros Hmid Hint Ha Hx Hy.
  pose proof (candidate_outside_target bounds w h a x y Ha) as Hout.
  apply Hint in Hout.
  change (place scr bounds w h 4 0 a x y) with
    (let '(x1, y1) := clamped scr bounds w h a x y in
     if intersects bounds
          {| rect_x := x1; rect_y := y1; rect_w := w; rect_h := h |}
     then place scr bounds w h 3 1 (next_align 0 a) x1 y1
     else Placed a x1 y1).
  unfold clamped. destruct (candidate bounds w h a x y) as [cx cy].
  cbn [fst snd] in *. rewrite (Hmid _ _ _ Hx), (Hmid _ _ _ Hy).
  by rewrite Hout.
Qed.

(** *** The alternate alignments *)

Section Flags.

Hypothesis Hflags : distinct_flags.

Lemma flag_bits n :
  Z.testbit JI_TOP n && Z.testbit JI_BOTTOM n = false /\
  Z.testbit JI_TOP n && Z.testbit JI_LEFT n = false /\
  Z.testbit JI_TOP n && Z.testbit JI_RIGHT n = false /\
  Z.testbit JI_BOTTOM n && Z.testbit JI_LEFT n = false /\
  Z.testbit JI_BOTTOM n && Z.testbit JI_RIGHT n = false /\
  Z.testbit JI_LEFT n && Z.testbit JI_RIGHT n = false.
Proof.
  destruct Hflags as (_ & _ & _ & _ & H1 & H2 & H3 & H4 & H5 & H6).
  repeat split; rewrite <- Z.land_spec;
    [rewrite H1|rewrite H2|rewrite H3|rewrite H4|rewrite H5|rewrite H6];
    apply Z.bits_0.
Qed.

(** Equations between combinations of the flags, bit by bit. *)
Ltac flag_cases n :=
  destruct (flag_bits n) as (? & ? & ? & ? & ? & ?);
  repeat (rewrite Z.land_spec in * || rewrite Z.lxor_spec in *
          || rewrite Z.lor_spec in * || rewrite Z.bits_0 in *);
  destruct (Z.testbit JI_TOP n), (Z.testbit JI_BOTTOM n),
    (Z.testbit JI_LEFT n), (Z.testbit JI_RIGHT n);
  simpl in *; congruence.

Ltac bits :=
  let n := fresh "n" in
  apply Z.bits_inj'; intros n _; flag_cases n.

Ltac bits_from E :=
  let n := fresh "n" in
  let Eb := fresh "Eb" in
  apply Z.bits_inj'; intros n _;
  pose proof (f_equal (fun z => Z.testbit z n) E) as Eb; cbv beta in Eb;
  flag_cases n.

(** One leaf of the case analysis on the two tests of a [switch] arm:
    the equation holds, or a test was decided against the flags. *)
Ltac leaf :=
  destruct Hflags as (HT & HB & HL & HR & _);
  first
    [ bits
    | exfalso;
      match goal with
      | E : Z.land _ _ <> 0 |- _ => apply E; bits
      end
    | exfalso;
      match goal with
      | E : Z.land _ _ = 0 |- _ =>
          first [ apply HT; bits_from E | apply HB; bits_from E
                | apply HL; bits_from E | apply HR; bits_from E ]
      end ].

Ltac arm :=
  unfold next_align, toggle;
  repeat match goal with
         | |- context [decide (?P)] => destruct (decide P)
         end;
  leaf.

Lemma switch_TL : next_align 0 (Z.lor JI_TOP JI_LEFT) = Z.lor JI_BOTTOM JI_RIGHT.
Proof. arm. Qed.
Lemma switch_BR : next_align 0 (Z.lor JI_BOTTOM JI_RIGHT) = Z.lor JI_TOP JI_LEFT.
Proof. arm. Qed.
Lemma switch_TR : next_align 0 (Z.lor JI_TOP JI_RIGHT) = Z.lor JI_BOTTOM JI_LEFT.
Proof. arm. Qed.
Lemma switch_BL : next_align 0 (Z.lor JI_BOTTOM JI_LEFT) = Z.lor JI_TOP JI_RIGHT.
Proof. arm. Qed.
Lemma switch_T : next_align 0 JI_TOP = JI_BOTTOM.
Proof. arm. Qed.
Lemma switch_B : next_align 0 JI_BOTTOM = JI_TOP.
Proof. arm. Qed.
Lemma switch_L : next_align 0 JI_LEFT = JI_RIGHT.
Proof. arm. Qed.
Lemma switch_R : next_align 0 JI_RIGHT = JI_LEFT.
Proof. arm. Qed.

Lemma rotate_TL : next_align 1 (Z.lor JI_TOP JI_LEFT) = 0.
Proof. arm. Qed.
Lemma rotate_BR : next_align 1 (Z.lor JI_BOTTOM JI_RIGHT) = 0.
Proof. arm. Qed.
Lemma rotate_TR : next_align 1 (Z.lor JI_TOP JI_RIGHT) = Z.lor JI_BOTTOM JI_LEFT.
Proof. arm. Qed.
Lemma rotate_BL : next_align 1 (Z.lor JI_BOTTOM JI_LEFT) = Z.lor JI_TOP JI_RIGHT.
Proof. arm. Qed.
Lemma rotate_T : next_align 1 JI_TOP = JI_LEFT.
Proof. arm. Qed.
Lemma rotate_L : next_align 1 JI_LEFT = JI_TOP.
Proof. arm. Qed.
Lemma rotate_B : next_align 1 JI_BOTTOM = JI_RIGHT.
Proof. arm. Qed.
Lemma rotate_R : next_align 1 JI_RIGHT = JI_BOTTOM.
Proof. arm. Qed.

Section Sequence.

Variables (scr : Screen) (bounds : Rect) (w h : Z).

Local Abbreviation attempt' := (attempt scr bounds w h).
Local Abbreviation collides' := (collides scr bounds w h).
Local Abbreviation clamped' := (clamped scr bounds w h).

Lemma align_indep k : forall t a x y x' y',
  fst (fst (attempt' t a x y k)) = fst (fst (attempt' t a x' y' k)).
Proof.
  induction k as [|k IH]; intros t a x y x' y'.
  - destruct (clamped' a x y) as [x1 y1] eqn:E.
    destruct (clamped' a x' y') as [x2 y2] eqn:E'.
    by rewrite (TooltipsSpec.attempt_0 _ _ _ _ _ _ _ _ _ _ E),
      (TooltipsSpec.attempt_0 _ _ _ _ _ _ _ _ _ _ E').
  - destruct (clamped' a x y) as [x1 y1] eqn:E.
    destruct (clamped' a x' y') as [x2 y2] eqn:E'.
    rewrite (TooltipsSpec.attempt_S _ _ _ _ _ _ _ _ _ _ _ E),
      (TooltipsSpec.attempt_S _ _ _ _ _ _ _ _ _ _ _ E').
    apply IH.
Qed.

Lemma align_0 t a x y : fst (fst (attempt' t a x y 0)) = a.
Proof.
  destruct (clamped' a x y) as [x1 y1] eqn:E.
  by rewrite (TooltipsSpec.attempt_0 _ _ _ _ _ _ _ _ _ _ E).
Qed.

Lemma align_S t a x y k :
  fst (fst (attempt' t a x y (S k)))
  = fst (fst (attempt' (S t) (next_align t a) x y k)).
Proof.
  destruct (clamped' a x y) as [x1 y1] eqn:E.
  rewrite (TooltipsSpec.attempt_S _ _ _ _ _ _ _ _ _ _ _ E).
  apply align_indep.
Qed.

Lemma align_seq a x y :
  attempt_align scr bounds w h a x y <$> [0; 1; 2; 3]%nat
  = [a; next_align 0 a; next_align 1 (next_align 0 a);
     next_align 0 (next_align 1 (next_align 0 a))].
Proof.
  unfold attempt_align. cbn [fmap list_fmap]. by rewrite !align_S, !align_0.
Qed.

(** X14. With flags that are distinct bits, the alignments that the four
    attempts try are: from a side, the opposite side and then the two
    other sides, so all four sides once; from the corners top-right and
    bottom-left, the two of them in turn, twice; from the corners top-left
    and bottom-right, the two of them and then, twice, no alignment at
    all. *)
Theorem attempt_alignments x y :
  let tried a := attempt_align scr bounds w h a x y <$> [0; 1; 2; 3]%nat in
  tried JI_TOP = [JI_TOP; JI_BOTTOM; JI_RIGHT; JI_LEFT] /\
  tried JI_BOTTOM = [JI_BOTTOM; JI_TOP; JI_LEFT; JI_RIGHT] /\
  tried JI_LEFT = [JI_LEFT; JI_RIGHT; JI_BOTTOM; JI_TOP] /\
  tried JI_RIGHT = [JI_RIGHT; JI_LEFT; JI_TOP; JI_BOTTOM] /\
  tried (Z.lor JI_TOP JI_RIGHT)
  = [Z.lor JI_TOP JI_RIGHT; Z.lor JI_BOTTOM JI_LEFT;
     Z.lor JI_TOP JI_RIGHT; Z.lor JI_BOTTOM JI_LEFT] /\
  tried (Z.lor JI_BOTTOM JI_LEFT)
  = [Z.lor JI_BOTTOM JI_LEFT; Z.lor JI_TOP JI_RIGHT;
     Z.lor JI_BOTTOM JI_LEFT; Z.lor JI_TOP JI_RIGHT] /\
  tried (Z.lor JI_TOP JI_LEFT)
  = [Z.lor JI_TOP JI_LEFT; Z.lor JI_BOTTOM JI_RIGHT; 0; 0] /\
  tried (Z.lor JI_BOTTOM JI_RIGHT)
  = [Z.lor JI_BOTTOM JI_RIGHT; Z.lor JI_TOP JI_LEFT; 0; 0].
Proof.
  cbv beta zeta. rewrite !align_seq.
  rewrite switch_T, switch_B, switch_L, switch_R,
    switch_TR, switch_BL, switch_TL, switch_BR.
  rewrite rotate_T, rotate_B, rotate_L, rotate_R,
    rotate_TR, rotate_BL, rotate_TL, rotate_BR.
  rewrite switch_T, switch_B, switch_L, switch_R, switch_TR, switch_BL.
  repeat split; reflexivity.
Qed.

Lemma candidate_zero x y : candidate bounds w h 0 x y = (x, y).
Proof.
  destruct Hflags as (HT & HB & HL & HR & _).
  unfold candidate.
  repeat (destruct (decide _) as [E|_];
    [exfalso; symmetry in E;
     try (apply Z.lor_eq_0_iff in E as [E _]); congruence|]).
  done.
Qed.

Lemma clamped_label a x y x' y' :
  a ∈ case_labels -> clamped' a x y = clamped' a x' y'.
Proof.
  intros Ha. unfold clamped.
  destruct (candidate_of_label bounds w h a x y Ha) as [_ Hc].
  cbv zeta in Hc. by rewrite (Hc x' y').
Qed.

Lemma clamped_zero a x y x1 y1 :
  (forall lo v hi, MID lo (MID lo v hi) hi = MID lo v hi) ->
  clamped' a x y = (x1, y1) ->
  clamped' 0 x1 y1 = (x1, y1).
Proof.
  intros Hidem. unfold clamped. rewrite candidate_zero.
  destruct (candidate bounds w h a x y) as [cx cy].
  intros [= <- <-]. by rewrite !Hidem.
Qed.

Lemma collides_first t a x y x1 y1 :
  clamped' a x y = (x1, y1) ->
  collides' t a x y 0
  = intersects bounds
      {| rect_x := x1; rect_y := y1; rect_w := w; rect_h := h |}.
Proof. apply TooltipsSpec.collides_0. Qed.

(** Two corners that send the search back and forth. *)
Lemma corner_back a a1 x y :
  a ∈ case_labels -> a1 ∈ case_labels ->
  next_align 0 a = a1 -> next_align 1 a1 = a ->
  collides' 0 a x y 2 = collides' 0 a x y 0 /\
  collides' 0 a x y 3 = collides' 0 a x y 1.
Proof.
  intros Ha Ha1 H01 H12.
  destruct (clamped' a x y) as [x0 y0] eqn:E0.
  destruct (clamped' a1 x0 y0) as [x1 y1] eqn:E1.
  assert (E2 : clamped' a x1 y1 = (x0, y0))
    by (by rewrite (clamped_label a x1 y1 x y Ha)).
  rewrite !(TooltipsSpec.collides_S _ _ _ _ _ _ _ _ _ _ _ E0), H01.
  rewrite !(TooltipsSpec.collides_S _ _ _ _ _ _ _ _ _ _ _ E1), H12.
  rewrite (TooltipsSpec.collides_S _ _ _ _ _ _ _ _ _ _ _ E2).
  change (next_align 2 a) with (next_align 0 a). rewrite H01.
  by rewrite (collides_first 0 _ _ _ _ _ E0), (collides_first 1 _ _ _ _ _ E1),
    (collides_first 3 _ _ _ _ _ E1), (collides_first 2 _ _ _ _ _ E2).
Qed.

(** Two corners after which the alignment is lost. *)
Lemma corner_stuck a a1 x y :
  (forall lo v hi, MID lo (MID lo v hi) hi = MID lo v hi) ->
  next_align 0 a = a1 -> next_align 1 a1 = 0 ->
  collides' 0 a x y 2 = collides' 0 a x y 1 /\
  collides' 0 a x y 3 = collides' 0 a x y 1.
Proof.
  intros Hidem H01 H12.
  destruct (clamped' a x y) as [x0 y0] eqn:E0.
  destruct (clamped' a1 x0 y0) as [x1 y1] eqn:E1.
  pose proof (clamped_zero _ _ _ _ _ Hidem E1) as E2.
  rewrite !(TooltipsSpec.collides_S _ _ _ _ _ _ _ _ _ _ _ E0), H01.
  rewrite !(TooltipsSpec.collides_S _ _ _ _ _ _ _ _ _ _ _ E1), H12.
  rewrite (TooltipsSpec.collides_S _ _ _ _ _ _ _ _ _ _ _ E2).
  change (next_align 2 0) with 0.
  by rewrite (collides_first 1 _ _ _ _ _ E1), (collides_first 2 _ _ _ _ _ E2),
    (collides_first 3 _ _ _ _ _ E2).
Qed.

(** X15. From a corner alignment the search tests only two rectangles: the
    third and fourth attempts test again a rectangle of the first two. So
    the search gives up exactly when the first two attempts collide. *)
Theorem place_from_corner a x y :
  (forall lo v hi, MID lo (MID lo v hi) hi = MID lo v hi) ->
  a ∈ corner_labels ->
  (collides' 0 a x y 2 = collides' 0 a x y 0
   \/ collides' 0 a x y 2 = collides' 0 a x y 1) /\
  collides' 0 a x y 3 = collides' 0 a x y 1 /\
  (place scr bounds w h 4 0 a x y = NoRoom <->
   collides' 0 a x y 0 = true /\ collides' 0 a x y 1 = true).
Proof.
  intros Hidem Ha.
  assert (Hrep : (collides' 0 a x y 2 = collides' 0 a x y 0
                  \/ collides' 0 a x y 2 = collides' 0 a x y 1) /\
                 collides' 0 a x y 3 = collides' 0 a x y 1).
  { assert (Hl : forall b, b ∈ corner_labels -> b ∈ case_labels)
      by (intros b Hb; apply elem_of_app; by left).
    cbv [corner_labels] in Ha, Hl.
    repeat (apply elem_of_cons in Ha as [->|Ha]).
    - destruct (corner_stuck (Z.lor JI_TOP JI_LEFT) (Z.lor JI_BOTTOM JI_RIGHT)
                  x y Hidem switch_TL rotate_BR). auto.
    - destruct (corner_back (Z.lor JI_TOP JI_RIGHT) (Z.lor JI_BOTTOM JI_LEFT)
                  x y); [apply Hl; set_solver..|apply switch_TR
                        |apply rotate_BL|auto].
    - destruct (corner_back (Z.lor JI_BOTTOM JI_LEFT) (Z.lor JI_TOP JI_RIGHT)
                  x y); [apply Hl; set_solver..|apply switch_BL
                        |apply rotate_TR|auto].
    - destruct (corner_stuck (Z.lor JI_BOTTOM JI_RIGHT) (Z.lor JI_TOP JI_LEFT)
                  x y Hidem switch_BR rotate_TL). auto.
    - by apply elem_of_nil in Ha. }
  destruct Hrep as [H2 H3]. split; [done|]. split; [done|].
  rewrite TooltipsSpec.place_NoRoom. split.
  - intros Hall. split; apply Hall; lia.
  - intros [H0 H1] k Hk.
    destruct k as [|[|[|[|k]]]]; [done|done| |congruence|lia].
    destruct H2; congruence.
Qed.

End Sequence.

End Flags.

End Engine.

(** *** The preferred size and its children *)

Section PreferredSize.

Context {Font : Type}.
Variable fitString : Font -> string -> Z -> Z -> Size.

Lemma foldr_max_bounds (g : Size -> Z) (l : list Size) (b : Z) :
  b <= foldr (fun c r => Z.max (g c) r) b l /\
  forall c, c ∈ l -> g c <= foldr (fun c r => Z.max (g c) r) b l.
Proof.
  induction l as [|d l [IHb IHl]]; simpl.
  - split; [lia|]. intros c Hc. by apply elem_of_nil in Hc.
  - split; [lia|]. intros c Hc.
    apply elem_of_cons in Hc as [->|Hc]; [lia|].
    specialize (IHl c Hc). lia.
Qed.

Lemma foldr_max_perm (g : Size -> Z) (l l' : list Size) (b : Z) :
  l ≡ₚ l' ->
  foldr (fun c r => Z.max (g c) r) b l
  = foldr (fun c r => Z.max (g c) r) b l'.
Proof.
  induction 1 as [|c l l' _ IH|c d l|l l' l'' _ IH1 _ IH2]; simpl.
  - done.
  - by rewrite IH.
  - lia.
  - congruence.
Qed.

Lemma foldl_grow_fold (l : list Size) (acc : Size) :
  foldl grow acc l
  = {| size_w := foldr (fun c r => Z.max (size_w c) r) (size_w acc) l;
       size_h := foldr (fun c r => Z.max (size_h c) r) (size_h acc) l |}.
Proof.
  pose proof (TooltipsSpec.foldl_grow_w l acc) as Hw.
  pose proof (TooltipsSpec.foldl_grow_h l acc) as Hh.
  destruct (foldl grow acc l). simpl in *. congruence.
Qed.

(** X16. The preferred size encloses the fitted text with its border and,
    beside the border, every child: no child is wider than the popup less
    its horizontal border, and the height leaves room for the text, the
    vertical border and any one child. *)
Theorem onPreferredSize_encloses font txt clientBounds border_width align
  (children : list Size) :
  let fit := fitString font txt
               (rect_w clientBounds
                - (border_l border_width + border_r border_width)) align in
  let size := onPreferredSize fitString font txt clientBounds border_width
                align children in
  size_w fit + border_l border_width + border_r border_width <= size_w size /\
  size_h fit + border_t border_width + border_b border_width <= size_h size /\
  forall c, c ∈ children ->
    border_l border_width + size_w c + border_r border_width <= size_w size /\
    size_h fit + border_t border_width + border_b border_width + size_h c
    <= size_h size.
Proof.
  intros fit size. subst size. unfold onPreferredSize.
  cbn [rect_w rect_shrink]. fold fit.
  destruct children as [|c0 children].
  { cbn [size_w size_h]. split; [lia|]. split; [lia|].
    intros c Hc. by apply elem_of_nil in Hc. }
  cbv zeta. rewrite foldl_grow_fold, TooltipsSpec.MAX_max.
  cbn [size_w size_h].
  destruct (foldr_max_bounds size_w (c0 :: children) 0) as [Hw0 Hw].
  destruct (foldr_max_bounds size_h (c0 :: children) 0) as [Hh0 Hh].
  split; [lia|]. split; [lia|].
  intros c Hc. specialize (Hw c Hc). specialize (Hh c Hc). lia.
Qed.

(** X17. The preferred size does not depend on the order of the
    children. *)
Theorem onPreferredSize_permutation font txt clientBounds border_width align
  (children children' : list Size) :
  children ≡ₚ children' ->
  onPreferredSize fitString font txt clientBounds border_width align children
  = onPreferredSize fitString font txt clientBounds border_width align
      children'.
Proof.
  intros Hp. unfold onPreferredSize.
  destruct children as [|c l], children' as [|c' l'].
  - done.
  - by apply Permutation_nil_cons in Hp.
  - symmetry in Hp. by apply Permutation_nil_cons in Hp.
  - cbv zeta. rewrite !foldl_grow_fold. cbn [size_w size_h].
    by rewrite (foldr_max_perm size_w _ _ 0 Hp),
      (foldr_max_perm size_h _ _ 0 Hp).
Qed.

End PreferredSize.

(** *** The theorems at the example toolkit *)

#[local] Existing Instance Example.toolkit.

Lemma example_distinct_flags : distinct_flags.
Proof. repeat split; (discriminate || reflexivity). Qed.

Lemma MID_median_inside lo v hi :
  lo <= v <= hi -> Example.MID_median lo v hi = v.
Proof.
  intros Hin. unfold Example.MID_median.
  repeat match goal with
         | |- context [?a >? ?b] => destruct (Z.gtb_spec a b)
         end; lia.
Qed.

Lemma MID_median_idem lo v hi :
  Example.MID_median lo (Example.MID_median lo v hi) hi
  = Example.MID_median lo v hi.
Proof.
  unfold Example.MID_median.
  repeat match goal with
         | |- context [?a >? ?b] => destruct (Z.gtb_spec a b)
         end; lia.
Qed.

Lemma rect_intersects_sound (r1 r2 : Rect) :
  Example.rect_intersects r1 r2 = false -> intersects r1 r2 = false.
Proof. done. Qed.

Lemma bottom_right_label : 144 ∈ case_labels.
Proof. apply list_elem_of_In. simpl. tauto. Qed.

Lemma engine_keeps_tips_witness :
  m_tips (fst (onProcessMessage Example.registered
                 (Example.enter Example.button)))
  = m_tips Example.registered /\
  onTick (Example.screen 60 30) Example.pending = Some Example.shown /\
  m_tips Example.shown = m_tips Example.pending.
Proof.
  split; [apply (engine_keeps_tips Example.registered)|].
  split; [reflexivity|].
  destruct (engine_keeps_tips Example.pending) as [_ Htick].
  apply (Htick (Example.screen 60 30)). reflexivity.
Defined.

Lemma hover_without_tip_witness :
  type (Example.enter Example.canvas) = kMouseEnterMessage /\
  Forall (fun v : Widget => m_tips Example.registered !! v = None)
    (recipients (Example.enter Example.canvas)) /\
  onProcessMessage Example.registered (Example.enter Example.canvas)
  = (Example.registered, false) /\
  onProcessMessage (removeTooltipFor Example.registered Example.button)
    (Example.enter Example.button)
  = (removeTooltipFor Example.registered Example.button, false) /\
  removeTooltipFor Example.registered Example.canvas = Example.registered.
Proof.
  assert (Hno : Forall (fun v : Widget => m_tips Example.registered !! v = None)
                  (recipients (Example.enter Example.canvas))).
  { constructor; [reflexivity|constructor]. }
  split; [reflexivity|]. split; [exact Hno|].
  destruct (hover_without_tip Example.registered
              (Example.enter Example.canvas) Example.canvas eq_refl)
    as (Hnone & _ & Hremove).
  destruct (hover_without_tip Example.registered
              (Example.enter Example.button) Example.button eq_refl)
    as (_ & Hgone & _).
  split; [exact (Hnone Hno)|]. split; [exact (Hgone eq_refl)|].
  apply Hremove. reflexivity.
Defined.

Lemma add_then_hover_witness :
  type (Example.enter Example.button) = kMouseEnterMessage /\
  recipients (Example.enter Example.button) = [Example.button] /\
  m_target (fst (onProcessMessage
                   (addTooltipFor Example.initial Example.button "Lock" 144)
                   (Example.enter Example.button)))
  = {| widget := Some Example.button;
       tipInfo := {| text := "Lock"; arrowAlign := 144 |} |} /\
  m_timer (fst (onProcessMessage
                  (addTooltipFor Example.initial Example.button "Lock" 144)
                  (Example.enter Example.button)))
  = Some {| interval := 300; running := true |} /\
  m_tipWindow (fst (onProcessMessage
                  (addTooltipFor Example.initial Example.button "Lock" 144)
                  (Example.enter Example.button)))
  = None /\
  (m_tips Example.initial !! Example.button = None ->
   removeTooltipFor (addTooltipFor Example.initial Example.button "Lock" 144)
     Example.button
   = Example.initial).
Proof.
  split; [reflexivity|]. split; [reflexivity|].
  exact (add_then_hover Example.initial (Example.enter Example.button)
           Example.button "Lock" 144 eq_refl eq_refl).
Defined.

Lemma initial_target_set : target_set Example.registered.
Proof. intros Hrun. discriminate Hrun. Defined.

Lemma react_all_safe_witness :
  target_set Example.registered /\
  exists s' n,
    react_all Example.registered Example.session = Some (s', n) /\
    (n <= (if timer_running Example.registered then 1 else 0)
          + hover_enters Example.session)%nat /\
    target_set s' /\
    m_tips s' = m_tips Example.registered.
Proof.
  split; [exact initial_target_set|].
  exact (react_all_safe Example.session Example.registered
           initial_target_set).
Defined.

Lemma registered_popup_clear : popup_clear Example.registered.
Proof. intros win Hwin. discriminate Hwin. Defined.

Lemma react_all_popup_clear_witness :
  popup_clear Example.registered /\
  react_all Example.registered
    [Deliver (Example.enter Example.button); Elapsed (Example.screen 60 30)]
  = Some (Example.shown, 1%nat) /\
  popup_clear Example.shown.
Proof.
  split; [exact registered_popup_clear|]. split; [reflexivity|].
  exact (react_all_popup_clear
           [Deliver (Example.enter Example.button);
            Elapsed (Example.screen 60 30)]
           Example.registered Example.shown 1%nat
           registered_popup_clear eq_refl).
Defined.

(** The session of the example: one pass for one hover. *)
Example session_passes :
  snd <$> react_all Example.registered Example.session = Some 1%nat.
Proof. reflexivity. Qed.

Lemma candidate_outside_target_witness :
  144 ∈ case_labels /\
  Example.rect_intersects (Example.bounds_of Example.button)
    {| rect_x := 40; rect_y := 70; rect_w := 60; rect_h := 30 |} = false.
Proof.
  split; [exact bottom_right_label|].
  exact (candidate_outside_target (Example.bounds_of Example.button) 60 30
           144 122 117 bottom_right_label).
Defined.

Lemma place_with_room_witness :
  (forall lo v hi, lo <= v <= hi -> MID lo v hi = v) /\
  (forall r1 r2, Example.rect_intersects r1 r2 = false ->
                 intersects r1 r2 = false) /\
  144 ∈ case_labels /\
  0 <= 40 <= 800 - 60 /\
  0 <= 70 <= 600 - 30 /\
  place (Example.screen 60 30) (Example.bounds_of Example.button) 60 30 4 0
    144 122 117
  = Placed 144 40 70.
Proof.
  assert (Hx : 0 <= 40 <= 800 - 60) by lia.
  assert (Hy : 0 <= 70 <= 600 - 30) by lia.
  split; [exact MID_median_inside|]. split; [exact rect_intersects_sound|].
  split; [exact bottom_right_label|]. split; [exact Hx|]. split; [exact Hy|].
  exact (place_with_room (Example.screen 60 30)
           (Example.bounds_of Example.button) 60 30 144 122 117
           MID_median_inside rect_intersects_sound bottom_right_label Hx Hy).
Defined.

Lemma attempt_alignments_witness :
  distinct_flags /\
  attempt_align (Example.screen 60 30) (Example.bounds_of Example.button)
    60 30 32 122 117 <$> [0; 1; 2; 3]%nat
  = [32; 128; 16; 4] /\
  attempt_align (Example.screen 60 30) (Example.bounds_of Example.button)
    60 30 144 122 117 <$> [0; 1; 2; 3]%nat
  = [144; 36; 0; 0].
Proof.
  split; [exact example_distinct_flags|].
  destruct (attempt_alignments example_distinct_flags (Example.screen 60 30)
              (Example.bounds_of Example.button) 60 30 122 117)
    as (Htop & _ & _ & _ & _ & _ & _ & Hbr).
  split; [exact Htop|exact Hbr].
Defined.

Lemma bottom_right_corner : 144 ∈ corner_labels.
Proof. apply list_elem_of_In. simpl. tauto. Qed.

Lemma place_from_corner_witness :
  distinct_flags /\
  (forall lo v hi, MID lo (MID lo v hi) hi = MID lo v hi) /\
  144 ∈ corner_labels /\
  (place Example.covered (getBounds Example.covered Example.button)
     10 10 4 0 144 62 62 = NoRoom <->
   collides Example.covered (getBounds Example.covered Example.button)
     10 10 0 144 62 62 0 = true /\
   collides Example.covered (getBounds Example.covered Example.button)
     10 10 0 144 62 62 1 = true).
Proof.
  split; [exact example_distinct_flags|]. split; [exact MID_median_idem|].
  split; [exact bottom_right_corner|].
  exact (proj2 (proj2
           (place_from_corner example_distinct_flags Example.covered
              (getBounds Example.covered Example.button) 10 10 144 62 62
              MID_median_idem bottom_right_corner))).
Defined.

Lemma first_child : {| size_w := 20; size_h := 10 |} ∈ Example.two_children.
Proof. left. Qed.

Lemma onPreferredSize_encloses_witness :
  {| size_w := 20; size_h := 10 |} ∈ Example.two_children /\
  40 + 6 + 6 <= 52 /\ 12 + 6 + 7 <= 45 /\
  6 + 20 + 6 <= 52 /\ 12 + 6 + 7 + 10 <= 45.
Proof.
  split; [exact first_child|].
  destruct (onPreferredSize_encloses Example.fit_fixed tt "Lock"
              Example.client Example.tip_border 0 Example.two_children)
    as (Hw & Hh & Hc).
  split; [exact Hw|]. split; [exact Hh|].
  exact (Hc _ first_child).
Defined.

Lemma two_children_swapped :
  Example.two_children
  ≡ₚ [ {| size_w := 30; size_h := 20 |}; {| size_w := 20; size_h := 10 |} ].
Proof. apply perm_swap. Qed.

Lemma onPreferredSize_permutation_witness :
  Example.two_children
  ≡ₚ [ {| size_w := 30; size_h := 20 |}; {| size_w := 20; size_h := 10 |} ] /\
  onPreferredSize Example.fit_fixed tt "Lock" Example.client
    Example.tip_border 0 Example.two_children
  = onPreferredSize Example.fit_fixed tt "Lock" Example.client
      Example.tip_border 0
      [ {| size_w := 30; size_h := 20 |}; {| size_w := 20; size_h := 10 |} ].
Proof.
  split; [exact two_children_swapped|].
  exact (onPreferredSize_permutation Example.fit_fixed tt "Lock"
           Example.client Example.tip_border 0 _ _ two_children_swapped).
Defined.

End TooltipsMore.

(** * Properties of the colour selector *)

Module ColorSelectorSpec.
Import ColorSelector.

Lemma select_tab_loop_spec sel (rest : list Model) :
  forall (m : nat) (window : Window) (ch : bool),
  NoDup (text <$> rest) ->
  (forall e, e ∈ rest -> is_Some (window !! text e)) ->
  exists window' : Window,
    select_tab_loop rest m sel window ch
    = Some (window', ch || bool_decide (window' <> window)) /\
    (forall (j : nat) e, rest !! j = Some e ->
       window' !! text e = Some (bool_decide ((m + j)%nat <> sel))) /\
    (forall n : string, n ∉ text <$> rest -> window' !! n = window !! n).
Proof.
  induction rest as [|e rest IH]; intros m window ch Hnd Hall.
  { exists window. simpl. rewrite bool_decide_eq_false_2 by auto.
    rewrite orb_false_r. split; [done|]. split; [|done].
    intros j e. by rewrite lookup_nil. }
  rewrite fmap_cons in Hnd. apply NoDup_cons in Hnd as [Hfresh Hnd].
  destruct (Hall e) as [hidden Hhid]; [left|].
  assert (Hrest : forall e', e' ∈ rest -> is_Some (window !! text e'))
    by (intros e' He'; apply Hall; by right).
  assert (Hkeep : forall (window1 window' : Window) (b : bool),
    window1 !! text e = Some b ->
    (forall (j : nat) e', rest !! j = Some e' ->
       window' !! text e' = Some (bool_decide ((S m + j)%nat <> sel))) ->
    (forall n : string, n ∉ text <$> rest -> window' !! n = window1 !! n) ->
    b = bool_decide (m <> sel) ->
    forall (j : nat) e', (e :: rest) !! j = Some e' ->
      window' !! text e' = Some (bool_decide ((m + j)%nat <> sel))).
  { intros window1 window' b Hb Hin Hout -> [|j] e' Hj; simpl in Hj.
    - injection Hj as <-. rewrite Hout by done. rewrite Hb.
      by rewrite Nat.add_0_r.
    - rewrite (Hin j e' Hj). by rewrite Nat.add_succ_r. }
  simpl. rewrite Hhid. simpl.
  destruct (decide (m = sel)) as [Hm|Hm]; destruct hidden; simpl.
  - destruct (IH (S m) (<[text e := false]> window) true Hnd)
      as (window' & -> & Hin & Hout).
    { intros e' He'. apply lookup_insert_is_Some'. right. by apply Hrest. }
    exists window'. split; [|split].
    + rewrite orb_true_l.
      rewrite (bool_decide_eq_true_2 (window' <> window)), orb_true_r; [done|].
      intros ->. rewrite Hout, lookup_insert_eq in Hhid by done. congruence.
    + apply (Hkeep (<[text e := false]> window) window' false);
        [apply lookup_insert_eq|done|done|].
      by rewrite bool_decide_eq_false_2 by auto.
    + intros n Hn. apply not_elem_of_cons in Hn as [Hne Hn].
      rewrite Hout by done. by rewrite lookup_insert_ne.
  - destruct (IH (S m) window ch Hnd Hrest) as (window' & -> & Hin & Hout).
    exists window'. split; [done|]. split.
    + apply (Hkeep window window' false); [done..|].
      by rewrite bool_decide_eq_false_2 by auto.
    + intros n Hn. apply not_elem_of_cons in Hn as [Hne Hn]. by apply Hout.
  - destruct (IH (S m) window ch Hnd Hrest) as (window' & -> & Hin & Hout).
    exists window'. split; [done|]. split.
    + apply (Hkeep window window' true); [done..|].
      by rewrite bool_decide_eq_true_2.
    + intros n Hn. apply not_elem_of_cons in Hn as [Hne Hn]. by apply Hout.
  - destruct (IH (S m) (<[text e := true]> window) true Hnd)
      as (window' & -> & Hin & Hout).
    { intros e' He'. apply lookup_insert_is_Some'. right. by apply Hrest. }
    exists window'. split; [|split].
    + rewrite orb_true_l.
      rewrite (bool_decide_eq_true_2 (window' <> window)), orb_true_r; [done|].
      intros ->. rewrite Hout, lookup_insert_eq in Hhid by done. congruence.
    + apply (Hkeep (<[text e := true]> window) window' true);
        [apply lookup_insert_eq|done|done|].
      by rewrite bool_decide_eq_true_2.
    + intros n Hn. apply not_elem_of_cons in Hn as [Hne Hn].
      rewrite Hout by done. by rewrite lookup_insert_ne.
Qed.

Lemma models_NoDup : NoDup (text <$> models).
Proof. apply (bool_decide_unpack _). vm_compute. exact I. Qed.

(** X18. In a window that has the four model containers,
    [select_tab_callback] returns with exactly the selected container
    shown and the other three hidden, leaves every other child as it was,
    asks for a new layout exactly when it changed a flag, and called again
    with the same selection changes nothing and asks for no layout. *)
Theorem select_tab_callback_shows_one (window : Window) (selected_model : nat) :
  (forall e, e ∈ models -> is_Some (window !! text e)) ->
  exists window' : Window,
    select_tab_callback window selected_model
    = Some (window', bool_decide (window' <> window)) /\
    (forall (j : nat) e, models !! j = Some e ->
       window' !! text e = Some (bool_decide (j <> selected_model))) /\
    (forall n : string, n ∉ text <$> models -> window' !! n = window !! n) /\
    select_tab_callback window' selected_model = Some (window', false).
Proof.
  intros Hall. unfold select_tab_callback.
  destruct (select_tab_loop_spec selected_model models 0 window false
              models_NoDup Hall) as (window' & Hrun & Hin & Hout).
  exists window'. split; [exact Hrun|]. split; [exact Hin|].
  split; [exact Hout|].
  destruct (select_tab_loop_spec selected_model models 0 window' false
              models_NoDup) as (window'' & Hrun' & Hin' & Hout').
  { intros e He. apply list_elem_of_lookup in He as [j Hj].
    rewrite (Hin j e Hj). by eexists. }
  assert (Heq : window'' = window').
  { apply map_eq. intros n.
    destruct (decide (n ∈ text <$> models)) as [Hn|Hn].
    - apply list_elem_of_fmap in Hn as (e & -> & He).
      apply list_elem_of_lookup in He as [j Hj].
      by rewrite (Hin j e Hj), (Hin' j e Hj).
    - by apply Hout'. }
  rewrite Hrun', Heq. by rewrite bool_decide_eq_false_2 by auto.
Qed.

Lemma new_window_has_models e :
  e ∈ models -> is_Some (new_window !! text e).
Proof.
  intros He. apply list_elem_of_In in He. simpl in He.
  destruct He as [<-|[<-|[<-|[<-|[]]]]]; by eexists.
Qed.

Lemma select_tab_callback_shows_one_witness :
  (forall e, e ∈ models -> is_Some (new_window !! text e)) /\
  exists window' : Window,
    select_tab_callback new_window MODEL_HSV
    = Some (window', bool_decide (window' <> new_window)) /\
    (forall (j : nat) e, models !! j = Some e ->
       window' !! text e = Some (bool_decide (j <> MODEL_HSV))) /\
    (forall n : string, n ∉ text <$> models ->
       window' !! n = new_window !! n) /\
    select_tab_callback window' MODEL_HSV = Some (window', false).
Proof.
  split; [exact new_window_has_models|].
  exact (select_tab_callback_shows_one new_window MODEL_HSV
           new_window_has_models).
Defined.

(** A window without the mask container: the null child is
    dereferenced. *)
Example select_tab_missing_child :
  select_tab_callback (delete "Mask" new_window) MODEL_RGB = None.
Proof. reflexivity. Qed.

End ColorSelectorSpec.
